(** * Drawing robot trajectories: a model of [ver1.py]

    The class [Good] of [ver1.py] draws chains of tangent circular arcs and
    filled polygons on a PIL image.  This development embeds the class
    shallowly and states the properties of its specification against it.

    Conventions of the embedding:
    - a Python number (int or float) that takes part in geometry is a real
      number of [R], so the arithmetic is exact and the rounding of floats is
      left out; integer-only configuration (sizes, widths, the scale) is a
      [Z] and enters the arithmetic through [IZR];
    - the two angles handed to the arc primitive are also computed as Python
      computes them, on IEEE 754 binary64 floats and unbounded ints, in the
      module [Binary64]: a floor division of floats answers the floor of the
      rounded quotient, which the floor of the exact quotient need not be;
    - a Python list of coordinates is a [list R], indexed with the
      [IndexError] of Python; an attribute that may hold [None] is an
      [option R], and arithmetic on [None] raises [TypeError];
    - methods run in a state-and-exception monad over the object and the
      trace of calls made to the outside (root finder, file system, viewer);
    - the canvas is the history of the drawing commands it received: it
      records a command and never refuses one, so what PIL does with the
      command (it raises [TypeError] on a polygon of fewer than two points)
      lies outside the embedding. *)

From Stdlib Require Import Reals Lra Lia ZArith List String Bool SpecFloat.
Import ListNotations.

Open Scope R_scope.

(** ** Exceptions and the monad of methods *)

Inductive exn : Type :=
| ZeroDivisionError
| IndexError
| TypeError.

Inductive outcome (A : Type) : Type :=
| Ret (a : A)
| Raise (e : exn).

Arguments Ret {A} a.
Arguments Raise {A} e.

Definition obind {A B} (m : outcome A) (k : A -> outcome B) : outcome B :=
  match m with
  | Ret a => k a
  | Raise e => Raise e
  end.

Declare Scope pure_scope.
Delimit Scope pure_scope with pure.
Notation "x <- m ; k" := (obind m (fun x => k))
  (at level 61, m at next level, right associativity) : pure_scope.

(** ** Python's numeric primitives, over the reals *)

(** [a // b] on floats. *)
Definition floordiv (a b : R) : outcome R :=
  if Req_dec_T b 0 then Raise ZeroDivisionError
  else Ret (IZR (Zfloor (a / b))).

(** [a / b]. *)
Definition truediv (a b : R) : outcome R :=
  if Req_dec_T b 0 then Raise ZeroDivisionError
  else Ret (a / b).

(** [round(x)] with one argument: nearest integer, ties to the even one. *)
Definition py_round (x : R) : Z :=
  let f := Zfloor x in
  let d := x - IZR f in
  if Rlt_dec d (1 / 2) then f
  else if Rlt_dec (1 / 2) d then (f + 1)%Z
  else if Z.even f then f else (f + 1)%Z.

(** [math.degrees]. *)
Definition degrees (x : R) : R := x * (180 / PI).

(** [math.atan2 y x]: the angle of the point [(x, y)], in (-PI, PI]. *)
Definition atan2 (y x : R) : R :=
  if Rlt_dec 0 x then atan (y / x)
  else if Rlt_dec x 0 then
         if Rle_dec 0 y then atan (y / x) + PI else atan (y / x) - PI
  else if Rlt_dec 0 y then PI / 2
  else if Rlt_dec y 0 then - (PI / 2)
  else 0.

(** [xs[n]] on a list. *)
Definition index {A} (xs : list A) (n : nat) : outcome A :=
  match nth_error xs n with
  | Some a => Ret a
  | None => Raise IndexError
  end.

(** Use of an attribute as a number: [None] is a [TypeError]. *)
Definition num (v : option R) : outcome R :=
  match v with
  | Some a => Ret a
  | None => Raise TypeError
  end.

(** [v < 0] as a boolean. *)
Definition is_negative (v : R) : bool :=
  if Rlt_dec v 0 then true else false.

(** Equality of two coordinate tuples. *)
Definition point_eqb (p q : R * R) : bool :=
  if Req_dec_T (fst p) (fst q)
  then if Req_dec_T (snd p) (snd q) then true else false
  else false.

(** ** Python's floats and ints, in binary64

    The floats of CPython are the doubles of C.  They are taken here as the
    [spec_float] of the standard library at precision 53 and exponent bound
    1024, with its correctly rounded operations; an int is a [Z]. *)

Module Binary64.

Local Open Scope Z_scope.

Definition float : Type := spec_float.

Definition prec : Z := 53.
Definition emax : Z := 1024.

Definition mul : float -> float -> float := SFmul prec emax.
Definition add : float -> float -> float := SFadd prec emax.
Definition sub : float -> float -> float := SFsub prec emax.
Definition div : float -> float -> float := SFdiv prec emax.
Definition eqb : float -> float -> bool := SFeqb.
Definition ltb : float -> float -> bool := SFltb.

(** The float nearest to an int, ties to even. *)
Definition of_int (n : Z) : float := binary_normalize prec emax n 0 false.

Definition zero : float := S754_zero false.
Definition one : float := of_int 1.
Definition half : float := S754_finite false 4503599627370496 (-53).

(** [math.pi], 0x1.921fb54442d18p+1. *)
Definition math_pi : float := S754_finite false 7074237752028440 (-51).

Inductive exception : Type :=
| ZeroDivisionError
| ValueError
| OverflowError.

Inductive result (A : Type) : Type :=
| Return (a : A)
| Raised (e : exception).

Arguments Return {A} a.
Arguments Raised {A} e.

Definition rbind {A B} (m : result A) (k : A -> result B) : result B :=
  match m with
  | Return a => k a
  | Raised e => Raised e
  end.

Declare Scope float_result_scope.
Delimit Scope float_result_scope with fres.
Notation "x <- m ; k" := (rbind m (fun x => k))
  (at level 61, m at next level, right associativity) : float_result_scope.

(** A Python number: an int or a float. *)
Inductive number : Type :=
| Int (n : Z)
| Float (f : float).

(** The truth value of a float in C: anything but a zero. *)
Definition truthy (x : float) : bool := negb (eqb x zero).

Definition sign (x : float) : bool :=
  match x with
  | S754_zero s | S754_infinity s | S754_finite s _ _ => s
  | S754_nan => false
  end.

(** An int where a float is wanted: the nearest float, or [OverflowError]
    when that lies beyond the largest one. *)
Definition float_of_int (n : Z) : result float :=
  match of_int n with
  | S754_infinity _ => Raised OverflowError
  | x => Return x
  end.

Definition as_float (a : number) : result float :=
  match a with
  | Int n => float_of_int n
  | Float f => Return f
  end.

(** [a - b] on numbers: exact on two ints, on floats otherwise. *)
Definition num_sub (a b : number) : result number :=
  match a, b with
  | Int m, Int n => Return (Int (m - n))
  | _, _ => (x <- as_float a; y <- as_float b; Return (Float (sub x y)))%fres
  end.

(** [fmod] of C: the remainder of the truncated quotient, exact, with the
    sign of [x]. *)
Definition fmod (x y : float) : float :=
  match x, y with
  | S754_nan, _ | _, S754_nan => S754_nan
  | S754_infinity _, _ => S754_nan
  | _, S754_zero _ => S754_nan
  | S754_zero _, _ => x
  | S754_finite _ _ _, S754_infinity _ => x
  | S754_finite sx mx ex, S754_finite _ my ey =>
      let e := Z.min ex ey in
      let ax := Zpos mx * 2 ^ (ex - e) in
      let ay := Zpos my * 2 ^ (ey - e) in
      binary_normalize prec emax (cond_Zopp sx (ax mod ay)) e sx
  end.

(** [floor] of C. *)
Definition floor (x : float) : float :=
  match x with
  | S754_finite s m e =>
      if 0 <=? e then x
      else binary_normalize prec emax (cond_Zopp s (Zpos m) / 2 ^ (- e)) 0 s
  | _ => x
  end.

(** [vx // wx] on floats, as [float_floor_div] of CPython computes it: the
    remainder by [fmod], the quotient of what is left, one less when the
    remainder and the divisor differ in sign, then snapped to the nearest
    whole number. *)
Definition floor_div (vx wx : float) : result float :=
  if eqb wx zero then Raised ZeroDivisionError
  else
    let remainder := fmod vx wx in
    let quotient := div (sub vx remainder) wx in
    let quotient :=
      if truthy remainder && xorb (ltb wx zero) (ltb remainder zero)
      then sub quotient one else quotient in
    Return (if truthy quotient
            then let floordiv := floor quotient in
                 if ltb half (sub quotient floordiv)
                 then add floordiv one else floordiv
            else S754_zero (sign (div vx wx))).

(** [math.degrees]: one multiplication by the float [180.0 / math.pi]. *)
Definition math_degrees (x : float) : float :=
  mul x (div (of_int 180) math_pi).

(** The integer nearest to [m / d], ties to even, for [d > 0]. *)
Definition round_half_even (m d : Z) : Z :=
  let q := m / d in
  match 2 * (m mod d) ?= d with
  | Lt => q
  | Gt => q + 1
  | Eq => if Z.even q then q else q + 1
  end.

(** [round(x)] with one argument: an int. *)
Definition py_round (x : float) : result Z :=
  match x with
  | S754_nan => Raised ValueError
  | S754_infinity _ => Raised OverflowError
  | S754_zero _ => Return 0
  | S754_finite s m e =>
      Return (cond_Zopp s
                (if 0 <=? e then Zpos m * 2 ^ e
                 else round_half_even (Zpos m) (2 ^ (- e))))
  end.

Section Angles.

(** [math.atan2] is the C library's function; it is a collaborator here. *)
Variable math_atan2 : float -> float -> float.

(** Lines 109-110: the angle of the start seen from the centre; a point is
    the pair of its coordinates [(x, y)]. *)
Definition starting_angle_rad (starting_point circle_center : number * number)
  : result float :=
  (dy <- num_sub (snd starting_point) (snd circle_center);
   dx <- num_sub (fst starting_point) (fst circle_center);
   y <- as_float dy;
   x <- as_float dx;
   Return (math_atan2 y x))%fres.

(** Lines 109-123 of [draw_arcs], as far as the angles go: the start and end
    arguments of the call of [d.arc], for the floats [l] and [radius] and the
    flag [negative_radius] that lines 91-97 stored. *)
Definition arc_angles (starting_point circle_center : number * number)
           (l radius : float) (negative_radius : bool)
  : result (number * number) :=
  (rad <- starting_angle_rad starting_point circle_center;
   starting_angle_deg <- py_round (math_degrees rad);
   span <- floor_div (mul (of_int 180) l) (mul math_pi radius);
   theta <- float_of_int starting_angle_deg;
   let ending_angle_deg := Float (add span theta) in
   if negative_radius
   then
     let ending_angle_deg := Int starting_angle_deg in
     span <- floor_div (mul (of_int 180) l) (mul math_pi radius);
     theta <- float_of_int starting_angle_deg;
     Return (Float (sub theta span), ending_angle_deg)
   else Return (Int starting_angle_deg, ending_angle_deg))%fres.

End Angles.

End Binary64.

(** ** The canvas and the outside world *)

Definition Color : Type := (Z * Z * Z)%type.

Inductive DrawCmd : Type :=
| Arc (box : list R) (start_deg end_deg : R) (fill : Color) (width : Z)
| Polygon (pts : list (R * R)) (fill outline : string).

Record Image : Type := mkImage {
  img_mode : string;
  img_size : Z * Z;
  img_background : Color;
  img_ops : list DrawCmd
}.

(** [Image.new(mode, size, color)]. *)
Definition Image_new (mode : string) (size : Z * Z) (color : Color) : Image :=
  mkImage mode size color [].

(** A drawing primitive paints on the image in place. *)
Definition paint (c : DrawCmd) (img : Image) : Image :=
  mkImage (img_mode img) (img_size img) (img_background img)
          (img_ops img ++ [c]).

(** [img.resize(size)]: a new image of that size with the same content. *)
Definition resize (size : Z * Z) (img : Image) : Image :=
  mkImage (img_mode img) size (img_background img) (img_ops img).

Inductive Event : Type :=
| SolverCall (guess : R * R)
| Saved (img : Image) (filename : string)
| Shown (img : Image).

(** ** The class [Good] *)

Record Good : Type := mkGood {
  image_size : Z;
  drawing_line_width : Z;
  scale : Z;
  size_multiplier : Z;
  image : Image;
  circle_center : list R;
  starting_point : list R;
  l : option R;
  radius : option R;
  ending_point : list R;
  line_color : Color;
  colors : list Color;
  prev_circle_center : list R;
  prev_radius : option R;
  prev_was_negative_radius : bool;
  same_direction_as_previous : bool;
  negative_radius : bool
}.

Definition set_image (v : Image) (s : Good) : Good :=
  mkGood (image_size s) (drawing_line_width s) (scale s) (size_multiplier s)
         v (circle_center s) (starting_point s) (l s) (radius s)
         (ending_point s) (line_color s) (colors s) (prev_circle_center s)
         (prev_radius s) (prev_was_negative_radius s)
         (same_direction_as_previous s) (negative_radius s).

Definition set_circle_center (v : list R) (s : Good) : Good :=
  mkGood (image_size s) (drawing_line_width s) (scale s) (size_multiplier s)
         (image s) v (starting_point s) (l s) (radius s)
         (ending_point s) (line_color s) (colors s) (prev_circle_center s)
         (prev_radius s) (prev_was_negative_radius s)
         (same_direction_as_previous s) (negative_radius s).

Definition set_starting_point (v : list R) (s : Good) : Good :=
  mkGood (image_size s) (drawing_line_width s) (scale s) (size_multiplier s)
         (image s) (circle_center s) v (l s) (radius s)
         (ending_point s) (line_color s) (colors s) (prev_circle_center s)
         (prev_radius s) (prev_was_negative_radius s)
         (same_direction_as_previous s) (negative_radius s).

Definition set_l (v : option R) (s : Good) : Good :=
  mkGood (image_size s) (drawing_line_width s) (scale s) (size_multiplier s)
         (image s) (circle_center s) (starting_point s) v (radius s)
         (ending_point s) (line_color s) (colors s) (prev_circle_center s)
         (prev_radius s) (prev_was_negative_radius s)
         (same_direction_as_previous s) (negative_radius s).

Definition set_radius (v : option R) (s : Good) : Good :=
  mkGood (image_size s) (drawing_line_width s) (scale s) (size_multiplier s)
         (image s) (circle_center s) (starting_point s) (l s) v
         (ending_point s) (line_color s) (colors s) (prev_circle_center s)
         (prev_radius s) (prev_was_negative_radius s)
         (same_direction_as_previous s) (negative_radius s).

Definition set_ending_point (v : list R) (s : Good) : Good :=
  mkGood (image_size s) (drawing_line_width s) (scale s) (size_multiplier s)
         (image s) (circle_center s) (starting_point s) (l s) (radius s)
         v (line_color s) (colors s) (prev_circle_center s)
         (prev_radius s) (prev_was_negative_radius s)
         (same_direction_as_previous s) (negative_radius s).

Definition set_prev_circle_center (v : list R) (s : Good) : Good :=
  mkGood (image_size s) (drawing_line_width s) (scale s) (size_multiplier s)
         (image s) (circle_center s) (starting_point s) (l s) (radius s)
         (ending_point s) (line_color s) (colors s) v
         (prev_radius s) (prev_was_negative_radius s)
         (same_direction_as_previous s) (negative_radius s).

Definition set_prev_radius (v : option R) (s : Good) : Good :=
  mkGood (image_size s) (drawing_line_width s) (scale s) (size_multiplier s)
         (image s) (circle_center s) (starting_point s) (l s) (radius s)
         (ending_point s) (line_color s) (colors s) (prev_circle_center s)
         v (prev_was_negative_radius s)
         (same_direction_as_previous s) (negative_radius s).

Definition set_prev_was_negative_radius (v : bool) (s : Good) : Good :=
  mkGood (image_size s) (drawing_line_width s) (scale s) (size_multiplier s)
         (image s) (circle_center s) (starting_point s) (l s) (radius s)
         (ending_point s) (line_color s) (colors s) (prev_circle_center s)
         (prev_radius s) v
         (same_direction_as_previous s) (negative_radius s).

Definition set_same_direction_as_previous (v : bool) (s : Good) : Good :=
  mkGood (image_size s) (drawing_line_width s) (scale s) (size_multiplier s)
         (image s) (circle_center s) (starting_point s) (l s) (radius s)
         (ending_point s) (line_color s) (colors s) (prev_circle_center s)
         (prev_radius s) (prev_was_negative_radius s)
         v (negative_radius s).

Definition set_negative_radius (v : bool) (s : Good) : Good :=
  mkGood (image_size s) (drawing_line_width s) (scale s) (size_multiplier s)
         (image s) (circle_center s) (starting_point s) (l s) (radius s)
         (ending_point s) (line_color s) (colors s) (prev_circle_center s)
         (prev_radius s) (prev_was_negative_radius s)
         (same_direction_as_previous s) v.

(** The object together with the calls it has made to the outside. *)
Record World : Type := mkWorld {
  self : Good;
  events : list Event
}.

Definition M (A : Type) : Type := World -> outcome A * World.

Definition ret {A} (a : A) : M A := fun w => (Ret a, w).

Definition bind {A B} (m : M A) (k : A -> M B) : M B :=
  fun w =>
    match m w with
    | (Ret a, w') => k a w'
    | (Raise e, w') => (Raise e, w')
    end.

Declare Scope meth_scope.
Delimit Scope meth_scope with meth.
Notation "x <- m ;; k" := (bind m (fun x => k))
  (at level 61, m at next level, right associativity) : meth_scope.
Notation "m ;; k" := (bind m (fun _ => k))
  (at level 61, right associativity) : meth_scope.

(** Evaluate an expression over the attributes of [self]. *)
Definition gets {A} (f : Good -> outcome A) : M A :=
  fun w => (f (self w), w).

(** Assign attributes of [self]. *)
Definition modify (f : Good -> Good) : M unit :=
  fun w => (Ret tt, mkWorld (f (self w)) (events w)).

(** Record a call to the outside. *)
Definition emit (f : Good -> Event) : M unit :=
  fun w => (Ret tt, mkWorld (self w) (events w ++ [f (self w)])).

(** [__init__] *)
Definition Good_init : Good :=
  let image_size := 3000%Z in
  let size_multiplier := 1%Z in
  let image := Image_new "RGBA"
                 ((image_size * size_multiplier)%Z,
                  (image_size * size_multiplier)%Z)
                 (255, 255, 255)%Z in
  mkGood image_size 6%Z 1000%Z size_multiplier image
         [IZR (fst (img_size image) / 2); IZR (snd (img_size image) / 2)]
         [] None None []
         (0, 0, 153)%Z
         [(0, 0, 153)%Z; (153, 0, 0)%Z; (0, 153, 0)%Z]
         [] None false true false.

Definition fresh : World := mkWorld Good_init [].

(** ** The polygon renderer *)

(** Lines 140-143: every coordinate times the scale, as a product of reals:
    distinct points stay distinct, which the rounded products of floats need
    not. *)
Definition resize_polygon (s : Good) (polygon : list (R * R)) : list (R * R) :=
  map (fun polygon_coord =>
         (fst polygon_coord * IZR (scale s), snd polygon_coord * IZR (scale s)))
      polygon.

(** Lines 144-146: with more than one point, a last point equal to the first
    is popped, once. *)
Definition drop_closing_point (resized_polygon : list (R * R)) : list (R * R) :=
  match resized_polygon with
  | first :: _ :: _ =>
      if point_eqb first (last resized_polygon first)
      then removelast resized_polygon
      else resized_polygon
  | _ => resized_polygon
  end.

(** The point list handed to [d.polygon] for one input polygon. *)
Definition fill_points (s : Good) (polygon : list (R * R)) : list (R * R) :=
  drop_closing_point (resize_polygon s polygon).

(** Lines 139-147: one fill per polygon.  The canvas records the fill
    whatever its points are; [d.polygon] of PIL raises [TypeError] when it
    gets fewer than two of them, which this loop does not show. *)
Fixpoint draw_polygons_loop (data : list (list (R * R))) : M unit :=
  match data with
  | [] => ret tt
  | polygon :: rest =>
      (modify (fun s =>
                 set_image (paint (Polygon (fill_points s polygon) "black" "black")
                                  (image s)) s) ;;
       draw_polygons_loop rest)%meth
  end.

(** The size both renderers resize to before saving. *)
Definition output_size (s : Good) : Z * Z :=
  ((image_size s * size_multiplier s)%Z, (image_size s * size_multiplier s)%Z).

(** [draw_polygons]: the resized copy is a local, [self.image] keeps the
    drawing. *)
Definition draw_polygons (data : list (list (R * R))) : M unit :=
  (draw_polygons_loop data ;;
   emit (fun s => Saved (resize (output_size s) (image s)) "drawn_polygons.png") ;;
   emit (fun s => Shown (resize (output_size s) (image s))))%meth.

(** [reset_image_coordinates] *)
Definition reset_image_coordinates : M unit :=
  modify (fun s =>
            set_circle_center
              [IZR (fst (img_size (image s)) / 2);
               IZR (snd (img_size (image s)) / 2)] s).

(** ** The arc chain renderer *)

(** [find_new_circle_center]: the two residuals handed to the root finder. *)
Definition find_new_circle_center (s : Good) (xy : list R) : outcome (R * R) :=
  (Ox <- index (prev_circle_center s) 0;
   Oy <- index (prev_circle_center s) 1;
   OO_value <-
     (if negb (same_direction_as_previous s)
      then (a <- num (prev_radius s); b <- num (radius s); Ret (a + b))
      else (a <- num (prev_radius s); b <- num (radius s); Ret (a - b)));
   let BO_value := radius s in
   Bx <- index (starting_point s) 0;
   By <- index (starting_point s) 1;
   x <- index xy 0;
   y <- index xy 1;
   let OO := - (OO_value ^ 2) + Ox ^ 2 - 2 * Ox * x + x ^ 2
             + Oy ^ 2 - 2 * Oy * y + y ^ 2 in
   BO_value <- num BO_value;
   let BO := - (BO_value ^ 2) + Bx ^ 2 - 2 * Bx * x + x ^ 2
             + By ^ 2 - 2 * By * y + y ^ 2 in
   Ret (OO, BO))%pure.

(** [find_ending_point] *)
Definition find_ending_point (s : Good) (angle_rad : R) : outcome (list R) :=
  (angle <-
     (if negative_radius s
      then (len <- num (l s); r <- num (radius s);
            q <- truediv len r; Ret (angle_rad - q))
      else (len <- num (l s); r <- num (radius s);
            q <- truediv len r; Ret (angle_rad + q)));
   cx <- index (circle_center s) 0;
   r <- num (radius s);
   let Bx := cx + r * cos angle in
   cy <- index (circle_center s) 1;
   r <- num (radius s);
   let By := cy + r * sin angle in
   Ret [Bx; By])%pure.

(** [find_pie_coordinates] *)
Definition find_pie_coordinates (circle_radius : option R)
           (circle_center : list R) : outcome (list R) :=
  (Ox <- index circle_center 0;
   Oy <- index circle_center 1;
   r <- num circle_radius;
   Ret [Ox - r; Oy - r; Ox + r; Oy + r])%pure.

(** Lines 90-103 of [draw_arcs]: scale the input pair, split the signed
    radius into magnitude and turn flag, compare the flag with the previous
    arc's, remember the previous circle. *)
Definition begin_arc (datum : R * R) (s : Good) : Good :=
  let s := set_prev_radius (radius s) s in
  let s := set_l (Some (fst datum * IZR (scale s))) s in
  let r := snd datum * IZR (scale s) in
  let s := set_radius (Some r) s in
  let s := if is_negative r
           then set_radius (Some (Rabs r)) (set_negative_radius true s)
           else set_negative_radius false s in
  let s := if (prev_was_negative_radius s && negative_radius s)
              || (negb (prev_was_negative_radius s) && negb (negative_radius s))
           then set_same_direction_as_previous true s
           else set_same_direction_as_previous false s in
  set_prev_circle_center (circle_center s) s.

(** [self.colors[i % len(self.colors)]] *)
Definition segment_color (i : nat) (s : Good) : outcome Color :=
  match List.length (colors s) with
  | O => Raise ZeroDivisionError
  | n => index (colors s) (i mod n)
  end.

(** [(180 * self.l) // (math.pi * self.radius)] over the reals: the whole
    degrees of the exact quotient.  The program's floats round the quotient
    before it is floored, which [Binary64.floor_div] follows. *)
Definition angular_span (s : Good) : outcome R :=
  (len <- num (l s);
   r <- num (radius s);
   floordiv (180 * len) (PI * r))%pure.

(** Line 107: a later arc starts where the previous one ended. *)
Definition continue_chain (s : Good) : Good :=
  set_starting_point (ending_point s) s.

Section Solver.

(** The root finder is a collaborator: given the residual function and a
    starting guess it returns a point. *)
Variable fsolve : (R * R -> R * R) -> R * R -> R * R.

(** The residual as the root finder sees it, once its first evaluation has
    shown that the attributes it reads are in place. *)
Definition residual (s : Good) (xy : R * R) : R * R :=
  match find_new_circle_center s [fst xy; snd xy] with
  | Ret p => p
  | Raise _ => (0, 0)
  end.

(** [list(fsolve(self.find_new_circle_center, np.array([0, 0])))]: the root
    finder evaluates the residual at the guess before iterating, so an
    exception of the residual surfaces here. *)
Definition solve_circle_center : M (list R) :=
  (emit (fun _ => SolverCall (0, 0)) ;;
   _ <- gets (fun s => find_new_circle_center s [0; 0]) ;;
   c <- gets (fun s => Ret (fsolve (residual s) (0, 0))) ;;
   ret [fst c; snd c])%meth.

(** Lines 104-108: where the arc starts and which circle carries it. *)
Definition locate_start (i : nat) : M unit :=
  match i with
  | O =>
      (p <- gets (fun s =>
                    (cx <- index (circle_center s) 0;
                     r <- num (radius s);
                     cy <- index (circle_center s) 1;
                     Ret [cx - r; cy])%pure) ;;
       modify (set_starting_point p))%meth
  | S _ =>
      (modify continue_chain ;;
       c <- solve_circle_center ;;
       modify (set_circle_center c))%meth
  end.

(** Lines 109-125: the angles, the drawing command, the ending point. *)
Definition render_arc (i : nat) : M unit :=
  (starting_angle_rad <-
     gets (fun s =>
             (sy <- index (starting_point s) 1;
              cy <- index (circle_center s) 1;
              sx <- index (starting_point s) 0;
              cx <- index (circle_center s) 0;
              Ret (atan2 (sy - cy) (sx - cx)))%pure) ;;
   let starting_angle_deg := IZR (py_round (degrees starting_angle_rad)) in
   span <- gets angular_span ;;
   let ending_angle_deg := span + starting_angle_deg in
   pie_coordinates <-
     gets (fun s => find_pie_coordinates (radius s) (circle_center s)) ;;
   negative <- gets (fun s => Ret (negative_radius s)) ;;
   (if negative : bool
    then
      modify (set_prev_was_negative_radius true) ;;
      let ending_angle_deg := starting_angle_deg in
      span <- gets angular_span ;;
      let starting_angle_deg := ending_angle_deg - span in
      fill <- gets (segment_color i) ;;
      modify (fun s =>
                set_image (paint (Arc pie_coordinates starting_angle_deg
                                      ending_angle_deg fill
                                      (drawing_line_width s))
                                 (image s)) s)
    else
      modify (set_prev_was_negative_radius false) ;;
      fill <- gets (segment_color i) ;;
      modify (fun s =>
                set_image (paint (Arc pie_coordinates starting_angle_deg
                                      ending_angle_deg fill
                                      (drawing_line_width s))
                                 (image s)) s)) ;;
   p <- gets (fun s => find_ending_point s starting_angle_rad) ;;
   modify (set_ending_point p))%meth.

(** One pass through the body of the [for] loop. *)
Definition arc_iteration (i : nat) (datum : R * R) : M unit :=
  (modify (begin_arc datum) ;;
   locate_start i ;;
   render_arc i)%meth.

Fixpoint draw_arcs_loop (i : nat) (data : list (R * R)) : M unit :=
  match data with
  | [] => ret tt
  | datum :: rest =>
      (arc_iteration i datum ;; draw_arcs_loop (S i) rest)%meth
  end.

(** [draw_arcs] *)
Definition draw_arcs (data : list (R * R)) : M unit :=
  (draw_arcs_loop 0 data ;;
   modify (fun s => set_image (resize (output_size s) (image s)) s) ;;
   emit (fun s => Saved (image s) "drawn_arcs.png") ;;
   emit (fun s => Shown (image s)))%meth.

(** Lines 90-108 as one step: the part of the iteration before any angle
    is computed. *)
Definition start_arc (i : nat) (datum : R * R) : M unit :=
  (modify (begin_arc datum) ;; locate_start i)%meth.

(** The centre the root finder returns for the state [s] of an arc after the
    first. *)
Definition solved_center (s : Good) : list R :=
  let c := fsolve (residual (continue_chain s)) (0, 0) in [fst c; snd c].

End Solver.

(** ** Vocabulary of the properties *)

(** The state [render_arc] leaves behind when the arc has a radius other
    than zero: the turn flag remembered, one arc painted, the ending point
    stored. *)
Definition rendered (i : nat) (s : Good) (cx cy sx sy len r : R) (fill : Color)
  : Good :=
  let theta_rad := atan2 (sy - cy) (sx - cx) in
  let theta := IZR (py_round (degrees theta_rad)) in
  let span := IZR (Zfloor (180 * len / (PI * r))) in
  let phi := if negative_radius s
             then theta_rad - len / r else theta_rad + len / r in
  set_ending_point
    [cx + r * cos phi; cy + r * sin phi]
    (set_image
       (paint (Arc [cx - r; cy - r; cx + r; cy + r]
                   (if negative_radius s then theta - span else theta)
                   (if negative_radius s then theta else span + theta)
                   fill (drawing_line_width s))
              (image s))
       (set_prev_was_negative_radius (negative_radius s) s)).

(** The constants [__init__] sets and no method changes, and the size every
    image of the session has. *)
Definition configured (s : Good) : Prop :=
  image_size s = 3000%Z
  /\ size_multiplier s = 1%Z
  /\ scale s = 1000%Z
  /\ colors s = [(0, 0, 153)%Z; (153, 0, 0)%Z; (0, 153, 0)%Z]
  /\ img_size (image s) = (3000, 3000)%Z
  /\ drawing_line_width s = 6%Z.

Definition has_center (s : Good) : Prop :=
  exists cx cy : R, circle_center s = [cx; cy].

(** What holds between any two method calls. *)
Definition well_formed (s : Good) : Prop := configured s /\ has_center s.

(** What a completed arc leaves for the next one. *)
Definition chained (s : Good) : Prop :=
  exists ex ey r : R, ending_point s = [ex; ey] /\ radius s = Some r.

(** What holds at the head of iteration [i] of the loop. *)
Definition ready (i : nat) (s : Good) : Prop :=
  well_formed s /\ (i <> 0%nat -> chained s).

(** The calls to the root finder made while the start of arc [i] is located. *)
Definition solver_calls (i : nat) : list Event :=
  match i with
  | O => []
  | S _ => [SolverCall (0, 0)]
  end.

Definition nonzero_radius (datum : R * R) : Prop := snd datum <> 0.

(** Nothing but calls to the root finder has been added to the trace. *)
Definition only_solver_calls (before after : list Event) : Prop :=
  exists n : nat, after = before ++ repeat (SolverCall (0, 0)) n.

(** An attribute (or any function of the object) that a method leaves
    alone on every path, normal or exceptional. *)
Definition frames {A X} (proj : Good -> X) (m : M A) : Prop :=
  forall w, proj (self (snd (m w))) = proj (self w).

(** The sessions a caller can reach from a new object, also by carrying on
    after a call that raised. *)
Inductive reachable (fsolve : (R * R -> R * R) -> R * R -> R * R)
  : World -> Prop :=
| reachable_fresh : reachable fsolve fresh
| reachable_draw_arcs (data : list (R * R)) (w : World) :
    reachable fsolve w -> reachable fsolve (snd (draw_arcs fsolve data w))
| reachable_draw_polygons (data : list (list (R * R))) (w : World) :
    reachable fsolve w -> reachable fsolve (snd (draw_polygons data w))
| reachable_reset (w : World) :
    reachable fsolve w -> reachable fsolve (snd (reset_image_coordinates w)).

(** ** Inputs used as examples *)

(** Scenario 4 of the specification: a triangle given with its closing point. *)
Definition closed_triangle : list (R * R) := [(0, 0); (1, 0); (1, 1); (0, 0)].

(** A segment walked there and back and then closed once more. *)
Definition twice_closed_segment : list (R * R) := [(0, 0); (1, 0); (0, 0); (0, 0)].

(** Scenario 1 of the specification: one arc of length 0.5 and radius 0.01. *)
Definition single_arc : list (R * R) := [(1 / 2, 1 / 100)].

(** The attributes a first arc of radius 10 leaves on a new object, as far
    as the next arc reads them. *)
Definition after_first_arc : Good :=
  set_radius (Some 10) (set_ending_point [1490; 1500] Good_init).

(** A root finder that gives up at once and hands back its guess; it stands
    in for the collaborator where a property is instantiated. *)
Definition guess_solver (f : R * R -> R * R) (guess : R * R) : R * R := guess.

(** Two arcs of radius 0.01, the second turning the other way. *)
Definition reversing_arcs : list (R * R) :=
  [(1 / 2, 1 / 100); (1 / 2, - (1 / 100))].

(** A root finder that answers the centre of the second circle of
    [reversing_arcs] drawn on a new object: the point at distance 20 from the
    canvas centre, straight beyond the end of the first arc. *)
Definition turning_solver (f : R * R -> R * R) (guess : R * R) : R * R :=
  (1500 + 20 * cos (PI + 50), 1500 + 20 * sin (PI + 50)).

(** The session after [draw_arcs] on [reversing_arcs], with no reset. *)
Definition turned_session : World :=
  snd (draw_arcs turning_solver reversing_arcs fresh).

(** The first arc of scenario 1 as line 109 finds it: the start
    [[1500 - 10.0, 1500]], the centre [[1500, 1500]]. *)
Definition scenario_start : Binary64.number * Binary64.number :=
  (Binary64.Float (Binary64.of_int 1490), Binary64.Int 1500).

Definition canvas_centre : Binary64.number * Binary64.number :=
  (Binary64.Int 1500, Binary64.Int 1500).

(** The C library on the negative x axis, where [atan2 (0.0, x)] is the
    float nearest to pi; it stands in for [math.atan2] where a property is
    instantiated with a start straight left of the centre. *)
Definition atan2_left_of_centre (y x : Binary64.float) : Binary64.float :=
  Binary64.math_pi.

(** [math.radians(30)], 0x1.0c152382d7365p-1: the length of an arc of thirty
    degrees on a circle of radius 1.0. *)
Definition radians_30 : Binary64.float :=
  S754_finite false 4716158501352293 (-53).

(** ** Vocabulary of the further properties *)

(** The attributes one iteration assigns before it can raise. *)
Definition arc_inputs (s : Good)
  : option R * option R * bool * bool * option R * list R :=
  (l s, radius s, negative_radius s, same_direction_as_previous s,
   prev_radius s, prev_circle_center s).

(** [self.colors[i % len(self.colors)]] for the palette of [__init__]. *)
Definition palette_color (i : nat) : Color :=
  nth (i mod 3) [(0, 0, 153)%Z; (153, 0, 0)%Z; (0, 153, 0)%Z] (0, 0, 0)%Z.

(** Colour and stroke width of an arc command. *)
Definition arc_style (c : DrawCmd) : option (Color * Z) :=
  match c with
  | Arc _ _ _ fill width => Some (fill, width)
  | Polygon _ _ _ => None
  end.

(** A root finder that answers the canvas centre, whatever it is asked. *)
Definition centre_solver (f : R * R -> R * R) (guess : R * R) : R * R :=
  (1500, 1500).

(** A polygon given with its closing point: at least two points, the last
    equal to the first. *)
Definition closed_polygon (polygon : list (R * R)) : Prop :=
  (2 <= List.length polygon)%nat
  /\ exists first : R * R,
       hd_error polygon = Some first /\ last polygon first = first.

(** The canvas of [s'] is the canvas of [s] with more drawn on it. *)
Definition canvas_grows (s s' : Good) : Prop :=
  img_mode (image s') = img_mode (image s)
  /\ img_background (image s') = img_background (image s)
  /\ exists cmds : list DrawCmd,
       img_ops (image s') = img_ops (image s) ++ cmds.

(** A relation between the object before and after a method that holds on
    every path, normal or exceptional. *)
Definition invariably {A} (Rel : Good -> Good -> Prop) (m : M A) : Prop :=
  forall w, Rel (self w) (self (snd (m w))).

(** Two objects that differ only by the fill commands [polys], drawn on the
    second right after the commands [base]. *)
Definition overlaid (base polys : list DrawCmd) (s1 s2 : Good) : Prop :=
  s2 = set_image (image s2) s1
  /\ img_mode (image s2) = img_mode (image s1)
  /\ img_size (image s2) = img_size (image s1)
  /\ img_background (image s2) = img_background (image s1)
  /\ exists tail : list DrawCmd,
       img_ops (image s1) = base ++ tail
       /\ img_ops (image s2) = base ++ polys ++ tail.

(** A method that behaves alike on related objects: same outcome, related
    objects afterwards. *)
Definition simulates {A} (Rel : Good -> Good -> Prop) (m : M A) : Prop :=
  forall w1 w2,
    Rel (self w1) (self w2) ->
    fst (m w1) = fst (m w2) /\ Rel (self (snd (m w1))) (self (snd (m w2))).

(** The script under [if __name__ == '__main__'] (lines 158-171); the
    decimal literals are the rationals they denote. *)

(** Line 160: a five-pointed star, given closed. *)
Definition main_polygons : list (list (R * R)) :=
  [[(3 / 10, 11 / 10); (8 / 10, 2 / 10); (13 / 10, 11 / 10);
    (15 / 100, 5 / 10); (145 / 100, 5 / 10); (3 / 10, 11 / 10)]].

(** Lines 165-167: [n] passes of the loop that grows the radius by 0.01. *)
Fixpoint generate (n : nat) (radius : R) : list (R * R) :=
  match n with
  | O => []
  | S n' =>
      let radius := radius + 1 / 100 in
      (1 / 2, radius) :: generate n' radius
  end.

(** Lines 163-168: nineteen arcs of growing radius and one that turns back. *)
Definition generated_data : list (R * R) :=
  generate 19 0 ++ [(6 / 10, - (2 / 10))].

(** Lines 159-171, on the object [Good()] builds. *)
Definition main (fsolve : (R * R -> R * R) -> R * R -> R * R) : M unit :=
  (draw_polygons main_polygons ;;
   draw_arcs fsolve generated_data ;;
   reset_image_coordinates ;;
   draw_arcs fsolve [(1 / 2, - (2 / 10)); (1 / 2, - (4 / 10))])%meth.

(** A session in which one arc of radius 10 has been resolved. *)
Definition after_first_arc_session : World := mkWorld after_first_arc [].

(** The object of that session once the length of its arc is set too. *)
Definition after_first_arc_with_length : Good := set_l (Some 500) after_first_arc.

(** * Properties *)

(** ** Equality of points *)

Lemma point_eqb_eq (p q : R * R) : point_eqb p q = true <-> p = q.
Proof.
  destruct p as [a b], q as [c d]; unfold point_eqb; cbn [fst snd].
  destruct (Req_dec_T a c) as [Hac | Hac];
    [destruct (Req_dec_T b d) as [Hbd | Hbd] |]; split; intros H;
    try discriminate; try reflexivity; try congruence.
Qed.

Lemma point_eqb_refl (p : R * R) : point_eqb p p = true.
Proof. apply point_eqb_eq; reflexivity. Qed.

Lemma point_eqb_neq (p q : R * R) : p <> q -> point_eqb p q = false.
Proof.
  intros H; destruct (point_eqb p q) eqn:E; [| reflexivity].
  apply point_eqb_eq in E; contradiction.
Qed.

(** ** The polygon renderer *)

Lemma resize_polygon_length (s : Good) (polygon : list (R * R)) :
  List.length (resize_polygon s polygon) = List.length polygon.
Proof. apply length_map. Qed.

Lemma resize_polygon_removelast (s : Good) (polygon : list (R * R)) :
  resize_polygon s (removelast polygon) = removelast (resize_polygon s polygon).
Proof.
  induction polygon as [| p [| q rest] IH]; try reflexivity.
  change (resize_polygon s (removelast (p :: q :: rest)))
    with (resize_polygon s [p] ++ resize_polygon s (removelast (q :: rest))).
  rewrite IH; reflexivity.
Qed.

Lemma drop_closing_point_closed (first : R * R) (rest : list (R * R)) :
  rest <> [] ->
  last (first :: rest) first = first ->
  drop_closing_point (first :: rest) = removelast (first :: rest).
Proof.
  intros Hne Hlast; destruct rest as [| q rest]; [congruence |].
  unfold drop_closing_point; rewrite Hlast, point_eqb_refl; reflexivity.
Qed.

Lemma drop_closing_point_open (first : R * R) (rest : list (R * R)) :
  last (first :: rest) first <> first ->
  drop_closing_point (first :: rest) = first :: rest.
Proof.
  intros Hlast; destruct rest as [| q rest]; [reflexivity |].
  unfold drop_closing_point; rewrite point_eqb_neq; [reflexivity |].
  intros E; apply Hlast; symmetry; exact E.
Qed.

Lemma drop_closing_point_nonempty (pts : list (R * R)) :
  pts <> [] -> drop_closing_point pts <> [].
Proof.
  destruct pts as [| p [| q rest]]; intros H; try assumption.
  unfold drop_closing_point.
  destruct (point_eqb p (last (p :: q :: rest) p)); [| discriminate].
  cbn [removelast]; discriminate.
Qed.

Lemma set_image_same (s : Good) : set_image (image s) s = s.
Proof. destruct s; reflexivity. Qed.

(** The loop issues one fill command per polygon, in order, and touches
    nothing but the canvas. *)
Lemma draw_polygons_loop_spec (data : list (list (R * R))) (w : World) :
  draw_polygons_loop data w =
    (Ret tt,
     mkWorld
       (set_image
          (mkImage (img_mode (image (self w))) (img_size (image (self w)))
                   (img_background (image (self w)))
                   (img_ops (image (self w))
                    ++ map (fun polygon =>
                              Polygon (fill_points (self w) polygon)
                                      "black" "black") data))
          (self w))
       (events w)).
Proof.
  revert w; induction data as [| polygon rest IH]; intros w.
  - cbn [draw_polygons_loop map ret]; rewrite app_nil_r.
    destruct w as [s ev]; destruct s as [? ? ? ? img]; destruct img; reflexivity.
  - cbn [draw_polygons_loop]; unfold bind, modify at 1.
    rewrite IH; cbn -[fill_points]; rewrite <- app_assoc; reflexivity.
Qed.

Lemma draw_polygons_ops (data : list (list (R * R))) (w : World) :
  img_ops (image (self (snd (draw_polygons data w)))) =
    img_ops (image (self w))
    ++ map (fun polygon => Polygon (fill_points (self w) polygon) "black" "black")
           data.
Proof.
  unfold draw_polygons, bind; rewrite draw_polygons_loop_spec; reflexivity.
Qed.

Lemma fill_points_closed (s : Good) (polygon : list (R * R)) (first : R * R) :
  (2 <= List.length polygon)%nat ->
  hd_error (resize_polygon s polygon) = Some first ->
  last (resize_polygon s polygon) first = first ->
  fill_points s polygon = removelast (resize_polygon s polygon).
Proof.
  intros Hlen Hhd Hlast; unfold fill_points.
  pose proof (resize_polygon_length s polygon) as Hl.
  destruct (resize_polygon s polygon) as [| p rest] eqn:E; [discriminate |].
  cbn [hd_error] in Hhd; injection Hhd as ->.
  apply drop_closing_point_closed; [| exact Hlast].
  intros ->; cbn [List.length] in Hl; lia.
Qed.

Lemma fill_points_closed_triangle :
  fill_points Good_init closed_triangle = [(0, 0); (1000, 0); (1000, 1000)].
Proof.
  rewrite (fill_points_closed Good_init closed_triangle (0 * 1000, 0 * 1000));
    [| cbn; lia | reflexivity | reflexivity].
  cbn [closed_triangle resize_polygon map removelast fst snd scale Good_init].
  repeat (f_equal; try lra).
Qed.

(** C7, as the claim states it, fails: a polygon closed twice over,
    (0,0),(1,0),(0,0),(0,0), has at least two points and equal first and last
    points; it is filled with the three points (0,0),(1000,0),(0,0), while the
    same polygon with the closing duplicate removed, (0,0),(1,0),(0,0), is
    again closed and is filled with the two points (0,0),(1000,0). *)
Lemma twice_closed_polygon_differs :
  (2 <= List.length twice_closed_segment)%nat
  /\ hd_error (resize_polygon (self fresh) twice_closed_segment)
     = Some (last (resize_polygon (self fresh) twice_closed_segment) (0, 0))
  /\ img_ops (image (self (snd (draw_polygons [twice_closed_segment] fresh))))
     = [Polygon [(0, 0); (1000, 0); (0, 0)] "black" "black"]
  /\ img_ops (image (self (snd (draw_polygons [removelast twice_closed_segment]
                                              fresh))))
     = [Polygon [(0, 0); (1000, 0)] "black" "black"]
  /\ img_ops (image (self (snd (draw_polygons [twice_closed_segment] fresh))))
     <> img_ops (image (self (snd (draw_polygons [removelast twice_closed_segment]
                                                 fresh)))).
Proof.
  assert (H3 : fill_points Good_init twice_closed_segment
               = [(0, 0); (1000, 0); (0, 0)]).
  { rewrite (fill_points_closed Good_init twice_closed_segment (0 * 1000, 0 * 1000));
      [| cbn; lia | reflexivity | reflexivity].
    cbn [twice_closed_segment resize_polygon map removelast fst snd scale Good_init].
    repeat (f_equal; try lra). }
  assert (H2 : fill_points Good_init (removelast twice_closed_segment)
               = [(0, 0); (1000, 0)]).
  { rewrite (fill_points_closed Good_init (removelast twice_closed_segment)
               (0 * 1000, 0 * 1000));
      [| cbn; lia | reflexivity | reflexivity].
    cbn [twice_closed_segment resize_polygon map removelast fst snd scale Good_init].
    repeat (f_equal; try lra). }
  rewrite !draw_polygons_ops.
  cbn [fresh self image Good_init Image_new img_ops map app].
  change (mkGood _ _ _ _ _ _ _ _ _ _ _ _ _ _ _ _ _) with Good_init.
  rewrite H3, H2.
  repeat split; try (cbn; lia); discriminate.
Qed.

(** C7 (amended): for every polygon with at least two points whose scaled
    first point equals its scaled last point, [draw_polygons] pops exactly that
    one trailing point, so the fill primitive receives the scaled polygon
    without its last point; this is the point list of the same polygon with
    the duplicate already removed whenever that shorter polygon has a single
    point or does not itself end on its first point.  The polygon
    (0,0),(1,0),(1,1),(0,0) at scale 1000 is filled with the vertices
    (0,0),(1000,0),(1000,1000). *)
Theorem closed_polygon_drops_closing_point :
  forall (w : World) (polygon : list (R * R)) (first : R * R),
    (2 <= List.length polygon)%nat ->
    hd_error (resize_polygon (self w) polygon) = Some first ->
    last (resize_polygon (self w) polygon) first = first ->
    let drawn p := img_ops (image (self (snd (draw_polygons [p] w)))) in
    drawn polygon
    = img_ops (image (self w))
      ++ [Polygon (removelast (resize_polygon (self w) polygon)) "black" "black"]
    /\ ((List.length polygon = 2)%nat
        \/ last (removelast (resize_polygon (self w) polygon)) first <> first ->
        drawn polygon = drawn (removelast polygon))
    /\ img_ops (image (self (snd (draw_polygons [closed_triangle] fresh))))
       = [Polygon [(0, 0); (1000, 0); (1000, 1000)] "black" "black"].
Proof.
  intros w polygon first Hlen Hhd Hlast drawn; subst drawn; cbv beta.
  rewrite !draw_polygons_ops; cbn [map].
  rewrite (fill_points_closed _ _ _ Hlen Hhd Hlast).
  split; [reflexivity |]; split.
  - intros Hopen; do 3 f_equal.
    unfold fill_points; rewrite resize_polygon_removelast.
    pose proof (resize_polygon_length (self w) polygon) as Hl.
    destruct (resize_polygon (self w) polygon) as [| p [| q rest]] eqn:E;
      try (cbn [List.length] in Hl; lia).
    cbn [hd_error] in Hhd; injection Hhd as ->.
    destruct rest as [| q' rest]; [reflexivity |].
    destruct Hopen as [H2 | Hopen];
      [rewrite <- Hl in H2; cbn [List.length] in H2; lia |].
    change (removelast (first :: q :: q' :: rest))
      with (first :: removelast (q :: q' :: rest)) in Hopen |- *.
    symmetry; apply drop_closing_point_open; exact Hopen.
  - cbn [fresh self image Good_init Image_new img_ops app].
    change (mkGood _ _ _ _ _ _ _ _ _ _ _ _ _ _ _ _ _) with Good_init.
    rewrite fill_points_closed_triangle; reflexivity.
Qed.

Lemma closed_polygon_drops_closing_point_witness :
  (2 <= List.length closed_triangle)%nat
  /\ img_ops (image (self (snd (draw_polygons [closed_triangle] fresh))))
     = img_ops (image (self fresh))
       ++ [Polygon (removelast (resize_polygon (self fresh) closed_triangle))
                   "black" "black"].
Proof.
  split; [cbn; lia |].
  apply (closed_polygon_drops_closing_point fresh closed_triangle (0 * 1000, 0 * 1000));
    [cbn; lia | reflexivity | reflexivity].
Defined.

(** C9: the closing point is dropped only from a scaled polygon of more than
    one point; a polygon of exactly one point reaches the fill primitive
    unchanged (scaled), and the point list handed to the fill primitive for a
    non-empty polygon is never empty. *)
Theorem nonempty_polygon_fill_nonempty :
  forall (w : World) (polygon : list (R * R)),
    polygon <> [] ->
    exists pts : list (R * R),
      img_ops (image (self (snd (draw_polygons [polygon] w))))
      = img_ops (image (self w)) ++ [Polygon pts "black" "black"]
      /\ pts <> []
      /\ ((List.length polygon = 1)%nat -> pts = resize_polygon (self w) polygon)
      /\ ((List.length pts < List.length polygon)%nat ->
          (1 < List.length polygon)%nat).
Proof.
  intros w polygon Hne; exists (fill_points (self w) polygon).
  rewrite draw_polygons_ops; cbn [map]; split; [reflexivity |]; split; [| split].
  - unfold fill_points; apply drop_closing_point_nonempty.
    destruct polygon; [congruence | discriminate].
  - intros H1; destruct polygon as [| p [| q rest]]; try discriminate.
    reflexivity.
  - destruct polygon as [| p [| q rest]]; cbn; lia.
Qed.

Lemma nonempty_polygon_fill_nonempty_witness :
  exists pts : list (R * R),
    img_ops (image (self (snd (draw_polygons [[(0, 0)]] fresh))))
    = img_ops (image (self fresh)) ++ [Polygon pts "black" "black"]
    /\ pts <> []
    /\ ((List.length [(0, 0)] = 1)%nat -> pts = resize_polygon (self fresh) [(0, 0)])
    /\ ((List.length pts < List.length [(0, 0)])%nat ->
        (1 < List.length [(0, 0)])%nat).
Proof.
  apply (nonempty_polygon_fill_nonempty fresh [(0, 0)]); discriminate.
Defined.

(** ** The arc chain renderer: one iteration *)

(** What [begin_arc] leaves in each attribute. *)

Lemma Rabs_of_sign (r : R) :
  (if is_negative r then Rabs r else r) = Rabs r.
Proof.
  unfold is_negative; destruct (Rlt_dec r 0) as [H | H]; [reflexivity |].
  symmetry; apply Rabs_right; lra.
Qed.

Lemma begin_arc_radius (datum : R * R) (s : Good) :
  radius (begin_arc datum s) = Some (Rabs (snd datum * IZR (scale s))).
Proof.
  rewrite <- (Rabs_of_sign (snd datum * IZR (scale s))).
  unfold begin_arc; cbn.
  destruct (is_negative (snd datum * IZR (scale s))); cbn;
    destruct (prev_was_negative_radius s); reflexivity.
Qed.

Lemma begin_arc_negative_radius (datum : R * R) (s : Good) :
  negative_radius (begin_arc datum s) = is_negative (snd datum * IZR (scale s)).
Proof.
  unfold begin_arc; cbn.
  destruct (is_negative (snd datum * IZR (scale s))); cbn;
    destruct (prev_was_negative_radius s); reflexivity.
Qed.

Lemma begin_arc_same_direction (datum : R * R) (s : Good) :
  same_direction_as_previous (begin_arc datum s)
  = Bool.eqb (is_negative (snd datum * IZR (scale s)))
             (prev_was_negative_radius s).
Proof.
  unfold begin_arc; cbn.
  destruct (is_negative (snd datum * IZR (scale s))); cbn;
    destruct (prev_was_negative_radius s); reflexivity.
Qed.

Lemma begin_arc_frame (datum : R * R) (s : Good) :
  l (begin_arc datum s) = Some (fst datum * IZR (scale s))
  /\ prev_radius (begin_arc datum s) = radius s
  /\ prev_circle_center (begin_arc datum s) = circle_center s
  /\ circle_center (begin_arc datum s) = circle_center s
  /\ starting_point (begin_arc datum s) = starting_point s
  /\ ending_point (begin_arc datum s) = ending_point s
  /\ prev_was_negative_radius (begin_arc datum s) = prev_was_negative_radius s
  /\ image (begin_arc datum s) = image s.
Proof.
  unfold begin_arc; cbn.
  destruct (is_negative (snd datum * IZR (scale s))); cbn;
    destruct (prev_was_negative_radius s) eqn:E; cbn; rewrite ?E;
    repeat split; reflexivity.
Qed.

Lemma begin_arc_config (datum : R * R) (s : Good) :
  image_size (begin_arc datum s) = image_size s
  /\ drawing_line_width (begin_arc datum s) = drawing_line_width s
  /\ scale (begin_arc datum s) = scale s
  /\ size_multiplier (begin_arc datum s) = size_multiplier s
  /\ colors (begin_arc datum s) = colors s.
Proof.
  unfold begin_arc; cbn.
  destruct (is_negative (snd datum * IZR (scale s))); cbn;
    destruct (prev_was_negative_radius s) eqn:E; cbn; rewrite ?E;
    repeat split; reflexivity.
Qed.

(** The residuals, once the attributes they read are in place. *)
Lemma find_new_circle_center_eval (s : Good) (Ox Oy Bx By Rprev Rcur x y : R) :
  prev_circle_center s = [Ox; Oy] ->
  starting_point s = [Bx; By] ->
  prev_radius s = Some Rprev ->
  radius s = Some Rcur ->
  let OO_value := if same_direction_as_previous s
                  then Rprev - Rcur else Rprev + Rcur in
  find_new_circle_center s [x; y]
  = Ret ((x - Ox) ^ 2 + (y - Oy) ^ 2 - OO_value ^ 2,
         (x - Bx) ^ 2 + (y - By) ^ 2 - Rcur ^ 2).
Proof.
  intros HO HB HRp HRc OO_value; subst OO_value.
  unfold find_new_circle_center; rewrite HO, HB, HRp, HRc.
  destruct (same_direction_as_previous s); cbn [negb index nth_error obind num];
    do 2 f_equal; ring.
Qed.

(** A sum of two squares whose root is known. *)
Lemma sqrt_of_square_distance (a b d : R) :
  a ^ 2 + b ^ 2 - d ^ 2 = 0 -> sqrt (a ^ 2 + b ^ 2) = Rabs d.
Proof.
  intros H; replace (a ^ 2 + b ^ 2) with (Rsqr d) by (unfold Rsqr; lra).
  apply sqrt_Rsqr_abs.
Qed.

(** C1: in the state the root finder sees for an arc after the first (the
    input pair normalised by [begin_arc], the start taken over from the
    previous ending point), the residual function at a candidate centre
    (x, y) returns exactly (|C-O|^2 - OO_value^2, |C-B|^2 - Rcur^2), with
    OO_value = Rprev - Rcur when the turn flag of the arc equals the previous
    arc's flag and Rprev + Rcur otherwise; at a common root of both residuals
    the distance from O to C is |Rprev - Rcur|, respectively Rprev + Rcur, and
    the distance from B to C is Rcur. *)
Theorem residuals_encode_tangency :
  forall (s0 : Good) (datum : R * R) (Ox Oy Bx By Rprev x y : R),
    circle_center s0 = [Ox; Oy] ->
    ending_point s0 = [Bx; By] ->
    radius s0 = Some Rprev ->
    0 <= Rprev ->
    let s := continue_chain (begin_arc datum s0) in
    let Rcur := Rabs (snd datum * IZR (scale s0)) in
    let same := Bool.eqb (is_negative (snd datum * IZR (scale s0)))
                         (prev_was_negative_radius s0) in
    let OO_value := if same then Rprev - Rcur else Rprev + Rcur in
    negative_radius s = is_negative (snd datum * IZR (scale s0))
    /\ find_new_circle_center s [x; y]
       = Ret ((x - Ox) ^ 2 + (y - Oy) ^ 2 - OO_value ^ 2,
              (x - Bx) ^ 2 + (y - By) ^ 2 - Rcur ^ 2)
    /\ residual s (x, y)
       = ((x - Ox) ^ 2 + (y - Oy) ^ 2 - OO_value ^ 2,
          (x - Bx) ^ 2 + (y - By) ^ 2 - Rcur ^ 2)
    /\ (find_new_circle_center s [x; y] = Ret (0, 0) ->
        sqrt ((x - Ox) ^ 2 + (y - Oy) ^ 2)
        = (if same then Rabs (Rprev - Rcur) else Rprev + Rcur)
        /\ sqrt ((x - Bx) ^ 2 + (y - By) ^ 2) = Rcur).
Proof.
  intros s0 datum Ox Oy Bx By Rprev x y HO HB HR Hpos s Rcur same OO_value.
  destruct (begin_arc_frame datum s0) as (_ & Hpr & Hpc & _ & _ & Hep & _).
  assert (Heval : find_new_circle_center s [x; y]
                  = Ret ((x - Ox) ^ 2 + (y - Oy) ^ 2 - OO_value ^ 2,
                         (x - Bx) ^ 2 + (y - By) ^ 2 - Rcur ^ 2)).
  { pose proof (find_new_circle_center_eval s Ox Oy Bx By Rprev Rcur x y) as E.
    cbv zeta in E; subst OO_value same s.
    unfold continue_chain in *; cbn [prev_circle_center starting_point prev_radius
      radius same_direction_as_previous set_starting_point] in *.
    rewrite begin_arc_same_direction in E; apply E.
    - rewrite Hpc; exact HO.
    - rewrite Hep; exact HB.
    - rewrite Hpr; exact HR.
    - apply begin_arc_radius. }
  split; [apply begin_arc_negative_radius |].
  split; [exact Heval |].
  split; [unfold residual; cbn [fst snd]; rewrite Heval; reflexivity |].
  rewrite Heval; intros Hroot; injection Hroot as HOO HBO.
  assert (HRc : 0 <= Rcur) by apply Rabs_pos.
  split.
  - rewrite (sqrt_of_square_distance _ _ _ HOO); subst OO_value.
    destruct same; [reflexivity | apply Rabs_right; lra].
  - rewrite (sqrt_of_square_distance _ _ _ HBO); apply Rabs_right; lra.
Qed.

(** C10: on the empty list [draw_arcs] issues no drawing command and leaves
    every attribute of the chain as it was; it still replaces the image by
    its resized copy, saves that under the fixed name and displays it. *)
Theorem draw_arcs_empty_list :
  forall (fsolve : (R * R -> R * R) -> R * R -> R * R) (w : World),
  exists w' : World,
    draw_arcs fsolve [] w = (Ret tt, w')
    /\ img_ops (image (self w')) = img_ops (image (self w))
    /\ circle_center (self w') = circle_center (self w)
    /\ starting_point (self w') = starting_point (self w)
    /\ ending_point (self w') = ending_point (self w)
    /\ radius (self w') = radius (self w)
    /\ prev_circle_center (self w') = prev_circle_center (self w)
    /\ prev_radius (self w') = prev_radius (self w)
    /\ prev_was_negative_radius (self w') = prev_was_negative_radius (self w)
    /\ self w' = set_image (resize (output_size (self w)) (image (self w))) (self w)
    /\ events w'
       = events w ++ [Saved (image (self w')) "drawn_arcs.png";
                      Shown (image (self w'))].
Proof.
  intros fsolve w; eexists; split; [reflexivity |].
  cbn; rewrite <- app_assoc; repeat split; reflexivity.
Qed.

(** *** Rendering an arc whose start and circle are known *)

Lemma floordiv_nonzero (a b : R) :
  b <> 0 -> floordiv a b = Ret (IZR (Zfloor (a / b))).
Proof. intros H; unfold floordiv; destruct (Req_dec_T b 0); [contradiction | reflexivity]. Qed.

Lemma truediv_nonzero (a b : R) : b <> 0 -> truediv a b = Ret (a / b).
Proof. intros H; unfold truediv; destruct (Req_dec_T b 0); [contradiction | reflexivity]. Qed.

Lemma floordiv_zero (a b : R) : b = 0 -> floordiv a b = Raise ZeroDivisionError.
Proof. intros H; unfold floordiv; destruct (Req_dec_T b 0); [reflexivity | contradiction]. Qed.

Lemma PI_times_nonzero (r : R) : r <> 0 -> PI * r <> 0.
Proof. intros H; apply Rmult_integral_contrapositive_currified; [apply PI_neq0 | exact H]. Qed.

Ltac step_render Hc Hs Hl Hr Hnz Hcol :=
  repeat first
    [ progress cbn [self events colors l radius circle_center negative_radius
         starting_point drawing_line_width image obind index nth_error num
         set_prev_was_negative_radius set_image set_ending_point]
    | rewrite Hl | rewrite Hr | rewrite Hc | rewrite Hs | rewrite Hcol
    | rewrite floordiv_nonzero by (apply PI_times_nonzero; exact Hnz)
    | rewrite truediv_nonzero by exact Hnz ].

Lemma render_arc_ok (i : nat) (w : World) (cx cy sx sy len r : R) (fill : Color) :
  circle_center (self w) = [cx; cy] ->
  starting_point (self w) = [sx; sy] ->
  l (self w) = Some len ->
  radius (self w) = Some r ->
  r <> 0 ->
  segment_color i (self w) = Ret fill ->
  render_arc i w
  = (Ret tt, mkWorld (rendered i (self w) cx cy sx sy len r fill) (events w)).
Proof.
  destruct w as [s ev]; cbn [self events].
  intros Hc Hs Hl Hr Hnz Hcol.
  unfold render_arc, rendered, bind, gets, modify, angular_span,
    find_pie_coordinates, find_ending_point, segment_color in *.
  step_render Hc Hs Hl Hr Hnz Hcol.
  destruct (negative_radius s) eqn:Hneg;
    step_render Hc Hs Hl Hr Hnz Hcol; rewrite ?Hneg;
    step_render Hc Hs Hl Hr Hnz Hcol; reflexivity.
Qed.

(** ** The arc chain renderer: the loop and the session *)

(** *** Attributes a method leaves alone, on every path *)

Lemma frames_ret {A X} (proj : Good -> X) (a : A) : frames proj (ret a).
Proof. intros w; reflexivity. Qed.

Lemma frames_gets {A X} (proj : Good -> X) (f : Good -> outcome A) :
  frames proj (gets f).
Proof. intros w; reflexivity. Qed.

Lemma frames_emit {X} (proj : Good -> X) (f : Good -> Event) :
  frames proj (emit f).
Proof. intros w; reflexivity. Qed.

Lemma frames_modify {X} (proj : Good -> X) (f : Good -> Good) :
  (forall s, proj (f s) = proj s) -> frames proj (modify f).
Proof. intros H w; apply H. Qed.

Lemma frames_bind {A B X} (proj : Good -> X) (m : M A) (k : A -> M B) :
  frames proj m -> (forall a, frames proj (k a)) -> frames proj (bind m k).
Proof.
  intros Hm Hk w; unfold bind.
  specialize (Hm w); destruct (m w) as [[a | e] w1]; cbn [snd] in *.
  - rewrite Hk; exact Hm.
  - exact Hm.
Qed.

Ltac solve_frames :=
  repeat first
    [ apply frames_ret | apply frames_gets | apply frames_emit
    | apply frames_modify; intros; reflexivity
    | apply frames_bind; [| intros ?]
    | match goal with
      | |- frames _ (if ?b then _ else _) => destruct b
      | |- frames _ (match ?b with Ret _ => _ | Raise _ => _ end) => destruct b
      end ].

Section Chain.

Variable fsolve : (R * R -> R * R) -> R * R -> R * R.

Lemma render_arc_frames_start (i : nat) :
  frames starting_point (render_arc i).
Proof. unfold render_arc; solve_frames. Qed.

Lemma solve_circle_center_frames {X} (proj : Good -> X) :
  frames proj (solve_circle_center fsolve).
Proof. unfold solve_circle_center; solve_frames. Qed.

Lemma locate_start_next_start (k : nat) (w : World) :
  starting_point (self (snd (locate_start fsolve (S k) w))) = ending_point (self w).
Proof.
  cbn [locate_start]; unfold bind at 1, modify at 1.
  set (w1 := mkWorld (continue_chain (self w)) (events w)).
  change (ending_point (self w)) with (starting_point (self w1)).
  generalize w1; clear w1 w.
  change (frames starting_point
            (bind (solve_circle_center fsolve) (fun c => modify (set_circle_center c)))).
  apply frames_bind; [apply solve_circle_center_frames | intros c; solve_frames].
Qed.

Lemma arc_iteration_next_start (k : nat) (datum : R * R) (w : World) :
  starting_point (self (snd (arc_iteration fsolve (S k) datum w)))
  = ending_point (self w).
Proof.
  unfold arc_iteration; unfold bind at 1, modify at 1.
  set (w1 := mkWorld (begin_arc datum (self w)) (events w)).
  replace (ending_point (self w)) with (ending_point (self w1))
    by (subst w1; apply begin_arc_frame).
  generalize w1; clear w1 w; intros w.
  unfold bind; pose proof (locate_start_next_start k w) as H.
  destruct (locate_start fsolve (S k) w) as [[[] | e] w2]; cbn [snd] in *.
  - rewrite render_arc_frames_start; exact H.
  - exact H.
Qed.

Lemma draw_arcs_loop_app (i : nat) (pre post : list (R * R)) (w : World) :
  draw_arcs_loop fsolve i (pre ++ post) w
  = match draw_arcs_loop fsolve i pre w with
    | (Ret _, w') => draw_arcs_loop fsolve (i + List.length pre) post w'
    | (Raise e, w') => (Raise e, w')
    end.
Proof.
  revert i w; induction pre as [| datum pre IH]; intros i w.
  - cbn [app draw_arcs_loop ret List.length]; rewrite Nat.add_0_r; reflexivity.
  - cbn [app draw_arcs_loop List.length]; unfold bind.
    destruct (arc_iteration fsolve i datum w) as [[[] | e] w1]; [| reflexivity].
    rewrite IH; replace (S i + List.length pre)%nat
      with (i + S (List.length pre))%nat by lia; reflexivity.
Qed.

(** C2: within one run of the loop of [draw_arcs], every arc after the
    first starts exactly at the ending point the previous iteration stored:
    the state after the arcs [pre ++ [datum]] has as starting point the
    ending point of the state after the arcs [pre].  The equality is one of
    values assigned, and holds whether or not the later arc can then be
    drawn. *)
Theorem later_arc_starts_at_previous_end :
  forall (pre : list (R * R)) (datum : R * R) (w : World),
    pre <> [] ->
    fst (draw_arcs_loop fsolve 0 pre w) = Ret tt ->
    starting_point (self (snd (draw_arcs_loop fsolve 0 (pre ++ [datum]) w)))
    = ending_point (self (snd (draw_arcs_loop fsolve 0 pre w))).
Proof.
  intros pre datum w Hne Hok; rewrite draw_arcs_loop_app.
  destruct (draw_arcs_loop fsolve 0 pre w) as [[[] | e] w1]; [| discriminate].
  cbn [snd fst draw_arcs_loop]; unfold bind.
  destruct pre as [| d0 pre]; [congruence |]; cbn [List.length Nat.add].
  pose proof (arc_iteration_next_start (List.length pre) datum w1) as H.
  destruct (arc_iteration fsolve (S (List.length pre)) datum w1) as [[[] | e] w2];
    exact H.
Qed.

Lemma segment_color_configured (i : nat) (s : Good) :
  configured s -> exists fill, segment_color i s = Ret fill.
Proof.
  intros (_ & _ & _ & Hc & _); unfold segment_color; rewrite Hc.
  cbn [List.length].
  pose proof (Nat.mod_upper_bound i 3 ltac:(lia)) as Hlt.
  destruct (i mod 3)%nat as [| [| [| n]]]; try lia; eexists; reflexivity.
Qed.

Lemma render_arc_zero (i : nat) (w : World) (cx cy sx sy len r : R) :
  circle_center (self w) = [cx; cy] ->
  starting_point (self w) = [sx; sy] ->
  l (self w) = Some len ->
  radius (self w) = Some r ->
  r = 0 ->
  render_arc i w = (Raise ZeroDivisionError, w).
Proof.
  destruct w as [s ev]; cbn [self events].
  intros Hc Hs Hl Hr Hz.
  unfold render_arc, bind, gets, angular_span.
  cbn [self events]; rewrite Hc, Hs, Hl, Hr.
  cbn [index nth_error obind num].
  rewrite floordiv_zero by (rewrite Hz; ring); reflexivity.
Qed.

(** *** One iteration, from a state that is ready for it *)

Lemma locate_start_first (w : World) (cx cy r : R) :
  circle_center (self w) = [cx; cy] ->
  radius (self w) = Some r ->
  locate_start fsolve 0 w
  = (Ret tt, mkWorld (set_starting_point [cx - r; cy] (self w)) (events w)).
Proof.
  intros Hc Hr; cbn [locate_start]; unfold bind, gets, modify.
  rewrite Hc, Hr; reflexivity.
Qed.

Lemma locate_start_next (k : nat) (w : World) (ox oy bx by' rp r : R) :
  prev_circle_center (self w) = [ox; oy] ->
  ending_point (self w) = [bx; by'] ->
  prev_radius (self w) = Some rp ->
  radius (self w) = Some r ->
  locate_start fsolve (S k) w
  = (Ret tt,
     mkWorld (set_circle_center (solved_center fsolve (self w)) (continue_chain (self w)))
             (events w ++ [SolverCall (0, 0)])).
Proof.
  intros Ho Hb Hrp Hr; cbn [locate_start].
  unfold bind, modify, solve_circle_center, bind, emit, gets, ret; cbn [self events].
  rewrite (find_new_circle_center_eval (continue_chain (self w)) ox oy bx by' rp r 0 0);
    try assumption; reflexivity.
Qed.

Lemma arc_iteration_split (i : nat) (datum : R * R) (w : World) :
  arc_iteration fsolve i datum w
  = bind (start_arc fsolve i datum) (fun _ => render_arc i) w.
Proof.
  unfold arc_iteration, start_arc, bind, modify.
  destruct (locate_start fsolve i _) as [[[] | e] w1]; reflexivity.
Qed.

Lemma configured_begin_arc (datum : R * R) (s : Good) :
  configured s -> configured (begin_arc datum s).
Proof.
  intros (H1 & H2 & H3 & H4 & H5 & H6).
  destruct (begin_arc_config datum s) as (E1 & E6 & E3 & E2 & E4).
  destruct (begin_arc_frame datum s) as (_ & _ & _ & _ & _ & _ & _ & E5).
  unfold configured; rewrite E1, E2, E3, E4, E5, E6; repeat split; assumption.
Qed.

Lemma start_arc_ready (i : nat) (datum : R * R) (w : World) (cx cy : R) :
  ready i (self w) ->
  circle_center (self w) = [cx; cy] ->
  exists (w1 : World) (cx1 cy1 sx sy : R),
    start_arc fsolve i datum w = (Ret tt, w1)
    /\ circle_center (self w1) = [cx1; cy1]
    /\ starting_point (self w1) = [sx; sy]
    /\ l (self w1) = Some (fst datum * 1000)
    /\ radius (self w1) = Some (Rabs (snd datum * 1000))
    /\ configured (self w1)
    /\ image (self w1) = image (self w)
    /\ events w1 = events w ++ solver_calls i
    /\ (i = 0%nat ->
        circle_center (self w1) = [cx; cy]
        /\ starting_point (self w1) = [cx - Rabs (snd datum * 1000); cy]).
Proof.
  intros [[Hcfg _] Hch] Hc.
  pose proof (configured_begin_arc datum _ Hcfg) as Hcfg1.
  pose proof (begin_arc_radius datum (self w)) as Hr.
  destruct (begin_arc_frame datum (self w))
    as (Hl & Hpr & Hpc & Hcc & _ & Hep & _ & Himg).
  assert (Hscale : scale (self w) = 1000%Z) by apply Hcfg.
  rewrite Hscale in Hr, Hl; rewrite Hc in Hpc, Hcc.
  unfold start_arc, bind; unfold modify at 1.
  set (w1 := mkWorld (begin_arc datum (self w)) (events w)).
  destruct i as [| k].
  - rewrite (locate_start_first w1 cx cy _ Hcc Hr).
    eexists _, cx, cy, _, _; split; [reflexivity |].
    cbn [self events circle_center starting_point l radius image solver_calls
         set_starting_point w1].
    rewrite app_nil_r; repeat split; try assumption; apply Hcfg1.
  - destruct (Hch ltac:(discriminate)) as (ex & ey & rp & He & Hrp).
    rewrite Hrp in Hpr; rewrite He in Hep.
    rewrite (locate_start_next k w1 cx cy ex ey rp _ Hpc Hep Hpr Hr).
    eexists _, _, _, ex, ey; split; [reflexivity |].
    cbn [self events circle_center starting_point l radius image solver_calls
         set_circle_center continue_chain set_starting_point solved_center w1].
    repeat split; try assumption; try apply Hcfg1; discriminate.
Qed.

Lemma configured_rendered (i : nat) (s : Good) (cx cy sx sy len r : R)
      (fill : Color) :
  configured s -> configured (rendered i s cx cy sx sy len r fill).
Proof. intros H; exact H. Qed.

(** One iteration on an arc of non-zero radius. *)
Lemma arc_iteration_ok (i : nat) (datum : R * R) (w : World) (cx cy : R) :
  ready i (self w) ->
  circle_center (self w) = [cx; cy] ->
  snd datum <> 0 ->
  exists w' : World,
    arc_iteration fsolve i datum w = (Ret tt, w')
    /\ ready (S i) (self w')
    /\ (exists a, img_ops (image (self w')) = img_ops (image (self w)) ++ [a])
    /\ events w' = events w ++ solver_calls i
    /\ (i = 0%nat ->
        circle_center (self w') = [cx; cy]
        /\ starting_point (self w') = [cx - Rabs (snd datum * 1000); cy]).
Proof.
  intros Hready Hc Hnz.
  destruct (start_arc_ready i datum w cx cy Hready Hc)
    as (w1 & cx1 & cy1 & sx & sy & Hrun & Hc1 & Hs1 & Hl1 & Hr1 & Hcfg1 & Himg1
        & Hev1 & Hfirst).
  destruct (segment_color_configured i _ Hcfg1) as [fill Hfill].
  assert (Hr : Rabs (snd datum * 1000) <> 0)
    by (apply Rabs_no_R0; lra).
  rewrite arc_iteration_split; unfold bind; rewrite Hrun.
  rewrite (render_arc_ok i w1 cx1 cy1 sx sy _ _ fill Hc1 Hs1 Hl1 Hr1 Hr Hfill).
  eexists; split; [reflexivity |].
  cbn [self events]; split; [| split; [| split]].
  - split; [split |].
    + apply configured_rendered; exact Hcfg1.
    + exists cx1, cy1; exact Hc1.
    + intros _; eexists _, _, _; split; [reflexivity | exact Hr1].
  - eexists; unfold rendered; cbn [image set_ending_point set_image paint img_ops].
    rewrite Himg1; reflexivity.
  - exact Hev1.
  - intros Hi; destruct (Hfirst Hi) as [E1 E2]; split; [exact E1 | exact E2].
Qed.

(** One iteration on an arc of radius zero. *)
Lemma arc_iteration_zero (i : nat) (datum : R * R) (w : World) (cx cy : R) :
  ready i (self w) ->
  circle_center (self w) = [cx; cy] ->
  snd datum = 0 ->
  exists w' : World,
    arc_iteration fsolve i datum w = (Raise ZeroDivisionError, w')
    /\ well_formed (self w')
    /\ image (self w') = image (self w)
    /\ events w' = events w ++ solver_calls i
    /\ (i = 0%nat ->
        circle_center (self w') = [cx; cy]
        /\ starting_point (self w') = [cx - Rabs (snd datum * 1000); cy])
    /\ angular_span (self w') = Raise ZeroDivisionError.
Proof.
  intros Hready Hc Hz.
  destruct (start_arc_ready i datum w cx cy Hready Hc)
    as (w1 & cx1 & cy1 & sx & sy & Hrun & Hc1 & Hs1 & Hl1 & Hr1 & Hcfg1 & Himg1
        & Hev1 & Hfirst).
  assert (Hr : Rabs (snd datum * 1000) = 0)
    by (rewrite Hz, Rmult_0_l; apply Rabs_R0).
  rewrite arc_iteration_split; unfold bind; rewrite Hrun.
  rewrite (render_arc_zero i w1 cx1 cy1 sx sy _ _ Hc1 Hs1 Hl1 Hr1 Hr).
  exists w1; split; [reflexivity |].
  repeat split; try assumption; try apply Hcfg1; try (apply Hfirst; assumption).
  - exists cx1, cy1; exact Hc1.
  - unfold angular_span; rewrite Hl1, Hr1; cbn [obind num].
    apply floordiv_zero; rewrite Hr; ring.
Qed.

Lemma only_solver_calls_step (i : nat) (a b c : list Event) :
  b = a ++ solver_calls i -> only_solver_calls b c -> only_solver_calls a c.
Proof.
  intros -> [n ->]; destruct i as [| k]; cbn [solver_calls].
  - exists n; rewrite app_nil_r; reflexivity.
  - exists (S n); rewrite <- app_assoc; reflexivity.
Qed.

Lemma first_zero_radius (data : list (R * R)) :
  Forall nonzero_radius data
  \/ exists pre len post,
       data = pre ++ (len, 0) :: post /\ Forall nonzero_radius pre.
Proof.
  induction data as [| [len r] data IH]; [left; constructor |].
  destruct (Req_dec_T r 0) as [-> | Hr].
  - right; exists [], len, data; split; [reflexivity | constructor].
  - destruct IH as [Hall | (pre & len' & post & -> & Hpre)].
    + left; constructor; assumption.
    + right; exists ((len, r) :: pre), len', post; split; [reflexivity |].
      constructor; assumption.
Qed.

(** The loop on arcs that all have a radius other than zero runs to its end
    and draws one arc each. *)
Lemma draw_arcs_loop_ok (data : list (R * R)) :
  forall (i : nat) (w : World),
    ready i (self w) ->
    Forall nonzero_radius data ->
    exists w' : World,
      draw_arcs_loop fsolve i data w = (Ret tt, w')
      /\ ready (i + List.length data) (self w')
      /\ List.length (img_ops (image (self w')))
         = (List.length (img_ops (image (self w))) + List.length data)%nat
      /\ only_solver_calls (events w) (events w').
Proof.
  induction data as [| datum data IH]; intros i w Hready Hall.
  - exists w; cbn [draw_arcs_loop ret List.length]; rewrite !Nat.add_0_r.
    repeat split; try apply Hready.
    exists 0%nat; cbn [repeat]; rewrite app_nil_r; reflexivity.
  - inversion Hall as [| ? ? Hnz Hrest]; subst.
    destruct Hready as [[Hcfg (cx & cy & Hc)] Hch].
    destruct (arc_iteration_ok i datum w cx cy
                (conj (conj Hcfg (ex_intro _ cx (ex_intro _ cy Hc))) Hch) Hc Hnz)
      as (w1 & Hrun & Hready1 & [a Hops] & Hev & _).
    destruct (IH (S i) w1 Hready1 Hrest) as (w' & Hrun' & Hready' & Hops' & Hev').
    exists w'; cbn [draw_arcs_loop]; unfold bind; rewrite Hrun.
    split; [exact Hrun' |]; split; [| split].
    + cbn [List.length]; replace (i + S (List.length data))%nat
        with (S i + List.length data)%nat by lia; exact Hready'.
    + rewrite Hops', Hops, length_app; cbn [List.length]; lia.
    + exact (only_solver_calls_step i _ _ _ Hev Hev').
Qed.

(** The loop stops at the first arc of radius zero. *)
Lemma draw_arcs_loop_fault (pre post : list (R * R)) (len : R) :
  forall (i : nat) (w : World),
    ready i (self w) ->
    Forall nonzero_radius pre ->
    exists w' : World,
      draw_arcs_loop fsolve i (pre ++ (len, 0) :: post) w
      = (Raise ZeroDivisionError, w')
      /\ well_formed (self w')
      /\ List.length (img_ops (image (self w')))
         = (List.length (img_ops (image (self w))) + List.length pre)%nat
      /\ only_solver_calls (events w) (events w')
      /\ angular_span (self w') = Raise ZeroDivisionError.
Proof.
  intros i w Hready Hall.
  destruct (draw_arcs_loop_ok pre i w Hready Hall)
    as (w1 & Hrun & Hready1 & Hops & Hev).
  rewrite draw_arcs_loop_app, Hrun; cbn [draw_arcs_loop]; unfold bind.
  destruct Hready1 as [[Hcfg (cx & cy & Hc)] Hch].
  destruct (arc_iteration_zero (i + List.length pre) (len, 0) w1 cx cy
              (conj (conj Hcfg (ex_intro _ cx (ex_intro _ cy Hc))) Hch) Hc eq_refl)
    as (w' & Hrun' & Hwf & Himg & Hev' & _ & Hspan).
  exists w'; rewrite Hrun'; split; [reflexivity |]; split; [exact Hwf |].
  split; [| split; [| exact Hspan]].
  - rewrite Himg; exact Hops.
  - destruct Hev as [n Hn]; unfold only_solver_calls; rewrite Hev', Hn.
    destruct (i + List.length pre)%nat; cbn [solver_calls].
    + exists n; rewrite app_nil_r; reflexivity.
    + exists (n + 1)%nat; rewrite repeat_app, app_assoc; reflexivity.
Qed.

(** *** The numbers of scenario 1 *)

(** Four decimals of PI, from the series of 2 atan (1/3) + atan (1/7). *)
Lemma PI_bounds : 31415 / 10000 < PI < 31416 / 10000.
Proof.
  pose proof (PI_2_3_7_ineq 2) as [Hlo Hhi].
  unfold sum_f_R0, tg_alt, PI_2_3_7_tg, Ratan_seq in Hlo, Hhi.
  cbn [Nat.mul Nat.add pow INR] in Hlo, Hhi.
  split; lra.
Qed.

Lemma atan2_negative_x_axis (y x : R) : y = 0 -> x < 0 -> atan2 y x = PI.
Proof.
  intros -> Hx; unfold atan2.
  destruct (Rlt_dec 0 x); [lra |].
  destruct (Rlt_dec x 0); [| lra].
  destruct (Rle_dec 0 0); [| lra].
  unfold Rdiv; rewrite Rmult_0_l, atan_0; ring.
Qed.

Lemma degrees_PI : degrees PI = 180.
Proof. unfold degrees; field; apply PI_neq0. Qed.

Lemma py_round_IZR (n : Z) : py_round (IZR n) = n.
Proof.
  unfold py_round; rewrite ZfloorZ.
  destruct (Rlt_dec (IZR n - IZR n) (1 / 2)); [reflexivity | lra].
Qed.

Lemma scenario_span : Zfloor (180 * (1 / 2 * 1000) / (PI * 10)) = 2864%Z.
Proof.
  apply Zfloor_eq; pose proof PI_bounds as [Hlo Hhi].
  replace (180 * (1 / 2 * 1000) / (PI * 10)) with (9000 / PI)
    by (field; apply PI_neq0).
  assert (Hpos : 0 < PI) by lra.
  split.
  - apply Rmult_le_reg_r with PI; [exact Hpos |].
    unfold Rdiv; rewrite Rmult_assoc, Rinv_l by lra; lra.
  - apply Rmult_lt_reg_r with PI; [exact Hpos |].
    unfold Rdiv; rewrite Rmult_assoc, Rinv_l by lra; lra.
Qed.

(** *** What every reachable session satisfies *)

Lemma well_formed_ready (s : Good) : well_formed s -> ready 0 s.
Proof. intros H; split; [exact H | intros C; congruence]. Qed.

Lemma draw_arcs_well_formed (data : list (R * R)) (w : World) :
  well_formed (self w) -> well_formed (self (snd (draw_arcs fsolve data w))).
Proof.
  intros Hwf; apply well_formed_ready in Hwf; unfold draw_arcs, bind.
  destruct (first_zero_radius data) as [Hall | (pre & len & post & -> & Hpre)].
  - destruct (draw_arcs_loop_ok data 0 w Hwf Hall)
      as (w' & -> & [[Hcfg Hc] _] & _).
    cbn [modify emit snd self set_image].
    destruct Hcfg as (H1 & H2 & H3 & H4 & H5 & H6); split; [| exact Hc].
    unfold configured, output_size; cbn [image_size size_multiplier scale colors
      drawing_line_width image img_size resize];
      rewrite H1, H2; repeat split; assumption.
  - destruct (draw_arcs_loop_fault pre post len 0 w Hwf Hpre)
      as (w' & -> & Hwf' & _); exact Hwf'.
Qed.

Lemma draw_polygons_well_formed (data : list (list (R * R))) (w : World) :
  well_formed (self w) -> well_formed (self (snd (draw_polygons data w))).
Proof.
  intros Hwf; unfold draw_polygons, bind; rewrite draw_polygons_loop_spec.
  exact Hwf.
Qed.

Lemma reset_center (w : World) :
  configured (self w) ->
  circle_center (self (snd (reset_image_coordinates w))) = [1500; 1500].
Proof.
  intros (_ & _ & _ & _ & H5 & _).
  unfold reset_image_coordinates, modify; cbn [snd self circle_center set_circle_center].
  rewrite H5; reflexivity.
Qed.

Lemma reset_well_formed (w : World) :
  well_formed (self w) -> well_formed (self (snd (reset_image_coordinates w))).
Proof.
  intros [Hcfg _]; split; [exact Hcfg |].
  exists 1500, 1500; apply reset_center; exact Hcfg.
Qed.

Lemma fresh_well_formed : well_formed (self fresh).
Proof.
  split; [repeat split |]; exists 1500, 1500; reflexivity.
Qed.

Lemma reachable_well_formed (w : World) : reachable fsolve w -> well_formed (self w).
Proof.
  induction 1 as [| data w _ IH | data w _ IH | w _ IH].
  - exact fresh_well_formed.
  - apply draw_arcs_well_formed; exact IH.
  - apply draw_polygons_well_formed; exact IH.
  - apply reset_well_formed; exact IH.
Qed.

(** The geometry of the first arc of a call, whether or not the call gets
    past it. *)
Lemma first_arc_geometry (datum : R * R) (w : World) (cx cy : R) :
  well_formed (self w) ->
  circle_center (self w) = [cx; cy] ->
  circle_center (self (snd (draw_arcs_loop fsolve 0 [datum] w))) = [cx; cy]
  /\ starting_point (self (snd (draw_arcs_loop fsolve 0 [datum] w)))
     = [cx - Rabs (snd datum * 1000); cy].
Proof.
  intros Hwf Hc; apply well_formed_ready in Hwf.
  cbn [draw_arcs_loop]; unfold bind.
  destruct (Req_dec_T (snd datum) 0) as [Hz | Hnz].
  - destruct (arc_iteration_zero 0 datum w cx cy Hwf Hc Hz)
      as (w' & -> & _ & _ & _ & Hgeo & _); exact (Hgeo eq_refl).
  - destruct (arc_iteration_ok 0 datum w cx cy Hwf Hc Hnz)
      as (w' & -> & _ & _ & _ & Hgeo); exact (Hgeo eq_refl).
Qed.

(** C5: in any session, [draw_arcs] on a list that holds an arc of radius 0
    raises [ZeroDivisionError]: the floor division of the angular span of the
    first such arc faults, nothing catches it, exactly the arcs before that
    one have been drawn, and the image is neither saved nor shown. *)
Theorem zero_radius_raises_division_error :
  forall (w : World) (data : list (R * R)) (len : R),
    reachable fsolve w ->
    In (len, 0) data ->
    exists (w' : World) (pre post : list (R * R)) (len0 : R),
      data = pre ++ (len0, 0) :: post
      /\ Forall nonzero_radius pre
      /\ draw_arcs fsolve data w = (Raise ZeroDivisionError, w')
      /\ angular_span (self w') = Raise ZeroDivisionError
      /\ List.length (img_ops (image (self w')))
         = (List.length (img_ops (image (self w))) + List.length pre)%nat
      /\ only_solver_calls (events w) (events w').
Proof.
  intros w data len Hreach Hin.
  pose proof (well_formed_ready _ (reachable_well_formed w Hreach)) as Hready.
  destruct (first_zero_radius data) as [Hall | (pre & len0 & post & -> & Hpre)].
  - rewrite Forall_forall in Hall; specialize (Hall _ Hin).
    exfalso; apply Hall; reflexivity.
  - destruct (draw_arcs_loop_fault pre post len0 0 w Hready Hpre)
      as (w' & Hrun & _ & Hops & Hev & Hspan).
    exists w', pre, post, len0; unfold draw_arcs, bind; rewrite Hrun.
    repeat split; assumption.
Qed.

(** C6: [reset_image_coordinates] puts the centre of the chain back on the
    centre of the canvas, (1500, 1500).  Hence, whatever [draw_arcs] on a list
    left behind, after a reset the first arc of the same list has the centre
    (1500, 1500) and starts at (1500 - r, 1500), r the scaled magnitude of its
    radius.  The first arc of the earlier call is drawn around the centre
    that call found, so it has this same centre and start exactly when the
    earlier call began with the centre of the chain on the centre of the
    canvas. *)
Theorem reset_restores_starting_geometry :
  forall (w : World) (datum : R * R) (rest : list (R * R)),
    reachable fsolve w ->
    let first_arc w0 := self (snd (draw_arcs_loop fsolve 0 [datum] w0)) in
    let w' := snd (reset_image_coordinates
                     (snd (draw_arcs fsolve (datum :: rest) w))) in
    circle_center (self w') = [1500; 1500]
    /\ circle_center (first_arc w') = [1500; 1500]
    /\ starting_point (first_arc w') = [1500 - Rabs (snd datum * 1000); 1500]
    /\ circle_center (first_arc w) = circle_center (self w)
    /\ (circle_center (first_arc w) = circle_center (first_arc w')
        /\ starting_point (first_arc w) = starting_point (first_arc w')
        <-> circle_center (self w) = [1500; 1500]).
Proof.
  intros w datum rest Hreach first_arc w'.
  pose proof (reachable_well_formed w Hreach) as Hwf.
  pose proof (draw_arcs_well_formed (datum :: rest) w Hwf) as Hwf1.
  pose proof (reset_center _ (proj1 Hwf1)) as Hc'.
  pose proof (reset_well_formed _ Hwf1) as Hwf'.
  destruct (first_arc_geometry datum w' 1500 1500 Hwf' Hc') as [E1 E2].
  pose proof Hwf as [_ (cx & cy & Hc)].
  destruct (first_arc_geometry datum w cx cy Hwf Hc) as [F1 F2].
  split; [exact Hc' |]; split; [exact E1 |]; split; [exact E2 |].
  subst first_arc; cbv beta.
  split; [rewrite F1, Hc; reflexivity |].
  rewrite E1, E2, F1, F2, Hc; split.
  - intros [H _]; exact H.
  - intros H; injection H as -> ->; split; reflexivity.
Qed.

Lemma locate_start_frames_flag (i : nat) :
  frames negative_radius (locate_start fsolve i).
Proof.
  destruct i; unfold locate_start, solve_circle_center; solve_frames.
Qed.

Lemma start_arc_negative_radius (i : nat) (datum : R * R) (w : World) :
  negative_radius (self (snd (start_arc fsolve i datum w)))
  = is_negative (snd datum * IZR (scale (self w))).
Proof.
  unfold start_arc, bind; unfold modify at 1.
  set (w1 := mkWorld (begin_arc datum (self w)) (events w)).
  pose proof (locate_start_frames_flag i w1) as H.
  destruct (locate_start fsolve i w1) as [[[] | e] w2]; cbn [snd] in *;
    rewrite H; apply begin_arc_negative_radius.
Qed.

(** One iteration on an arc of non-zero radius, with the state it leaves. *)
Lemma arc_iteration_rendered (i : nat) (datum : R * R) (w : World) (cx cy : R) :
  ready i (self w) ->
  circle_center (self w) = [cx; cy] ->
  snd datum <> 0 ->
  exists (w1 : World) (cx1 cy1 sx sy : R) (fill : Color),
    circle_center (self w1) = [cx1; cy1]
    /\ starting_point (self w1) = [sx; sy]
    /\ l (self w1) = Some (fst datum * 1000)
    /\ radius (self w1) = Some (Rabs (snd datum * 1000))
    /\ segment_color i (self w1) = Ret fill
    /\ negative_radius (self w1) = is_negative (snd datum * 1000)
    /\ configured (self w1)
    /\ image (self w1) = image (self w)
    /\ events w1 = events w ++ solver_calls i
    /\ (i = 0%nat ->
        circle_center (self w1) = [cx; cy]
        /\ starting_point (self w1) = [cx - Rabs (snd datum * 1000); cy])
    /\ arc_iteration fsolve i datum w
       = (Ret tt,
          mkWorld (rendered i (self w1) cx1 cy1 sx sy (fst datum * 1000)
                            (Rabs (snd datum * 1000)) fill)
                  (events w1)).
Proof.
  intros Hready Hc Hnz.
  destruct (start_arc_ready i datum w cx cy Hready Hc)
    as (w1 & cx1 & cy1 & sx & sy & Hrun & Hc1 & Hs1 & Hl1 & Hr1 & Hcfg1 & Himg1
        & Hev1 & Hfirst).
  destruct (segment_color_configured i _ Hcfg1) as [fill Hfill].
  assert (Hr : Rabs (snd datum * 1000) <> 0) by (apply Rabs_no_R0; lra).
  pose proof (start_arc_negative_radius i datum w) as Hneg.
  rewrite Hrun in Hneg; cbn [snd] in Hneg.
  replace (scale (self w)) with 1000%Z in Hneg by (symmetry; apply Hready).
  exists w1, cx1, cy1, sx, sy, fill.
  repeat (split; [assumption |]).
  rewrite arc_iteration_split; unfold bind; rewrite Hrun.
  apply (render_arc_ok i w1 cx1 cy1 sx sy _ _ fill Hc1 Hs1 Hl1 Hr1 Hr Hfill).
Qed.

(** C4: the ending point of a resolved arc is
    centre + r * (cos phi, sin phi) with phi = theta_rad - length / r for a
    negative turn and theta_rad + length / r otherwise, where theta_rad is
    the unrounded atan2 angle of the start seen from the centre; it is what
    [find_ending_point] returns for that angle, and it is where the next arc
    starts, whatever angles were handed to the drawing command. *)
Theorem ending_point_uses_unrounded_start_angle :
  forall (i : nat) (datum : R * R) (w : World),
    ready i (self w) ->
    snd datum <> 0 ->
    exists (w' : World) (cx cy sx sy : R),
      arc_iteration fsolve i datum w = (Ret tt, w')
      /\ circle_center (self w') = [cx; cy]
      /\ starting_point (self w') = [sx; sy]
      /\ let len := fst datum * 1000 in
         let r := Rabs (snd datum * 1000) in
         let theta_rad := atan2 (sy - cy) (sx - cx) in
         let phi := if is_negative (snd datum * 1000)
                    then theta_rad - len / r else theta_rad + len / r in
         ending_point (self w') = [cx + r * cos phi; cy + r * sin phi]
         /\ find_ending_point (self w') theta_rad
            = Ret [cx + r * cos phi; cy + r * sin phi]
         /\ forall next : R * R,
             starting_point (self (snd (arc_iteration fsolve (S i) next w')))
             = [cx + r * cos phi; cy + r * sin phi].
Proof.
  intros i datum w Hready Hnz.
  destruct Hready as [[Hcfg (cx & cy & Hc)] Hch].
  destruct (arc_iteration_rendered i datum w cx cy
              (conj (conj Hcfg (ex_intro _ cx (ex_intro _ cy Hc))) Hch) Hc Hnz)
    as (w1 & cx1 & cy1 & sx & sy & fill & Hc1 & Hs1 & Hl1 & Hr1 & _ & Hneg
        & Hcfg1 & Himg & _ & _ & Hrun).
  eexists _, cx1, cy1, sx, sy; split; [exact Hrun |].
  assert (Hr : Rabs (snd datum * 1000) <> 0) by (apply Rabs_no_R0; lra).
  split; [exact Hc1 |]; split; [exact Hs1 |]; cbv zeta.
  split; [| split].
  - unfold rendered; cbn [self ending_point set_ending_point]; rewrite Hneg.
    reflexivity.
  - unfold find_ending_point, rendered;
      cbn [self negative_radius l radius circle_center image
           set_ending_point set_image set_prev_was_negative_radius].
    rewrite Hneg, Hl1, Hr1, Hc1; cbn [obind num index nth_error].
    rewrite (truediv_nonzero _ _ Hr).
    destruct (is_negative (snd datum * 1000)); reflexivity.
  - intros next; rewrite arc_iteration_next_start.
    unfold rendered; cbn [self ending_point set_ending_point]; rewrite Hneg.
    reflexivity.
Qed.

(** C8: on a new session (image 3000 x 3000, scale 1000, centre seeded at
    (1500, 1500)) the chain of the single arc (0.5, 0.01) is drawn without a
    call to the root finder: the arc starts at (1490, 1500), ten units left
    of the seed, and the arc command goes from 180 to
    180 + floor (180 * 500 / (PI * 10)) = 3044 degrees. *)
Theorem fresh_single_arc_scenario :
  exists w' : World,
    img_size (image (self fresh)) = (3000, 3000)%Z
    /\ scale (self fresh) = 1000%Z
    /\ circle_center (self fresh) = [1500; 1500]
    /\ draw_arcs fsolve single_arc fresh = (Ret tt, w')
    /\ circle_center (self w') = [1500; 1500]
    /\ starting_point (self w') = [1490; 1500]
    /\ img_ops (image (self w'))
       = [Arc [1490; 1490; 1510; 1510] 180 3044 (0, 0, 153)%Z 6%Z]
    /\ events w'
       = [Saved (image (self w')) "drawn_arcs.png"; Shown (image (self w'))].
Proof.
  destruct (arc_iteration_rendered 0 (1 / 2, 1 / 100) fresh 1500 1500
              (well_formed_ready _ fresh_well_formed) eq_refl
              ltac:(cbn [snd]; lra))
    as (w1 & cx1 & cy1 & sx & sy & fill & Hc1 & Hs1 & Hl1 & Hr1 & Hfill & Hneg
        & Hcfg1 & Himg & Hev & Hfirst & Hrun).
  cbn [fst snd] in *.
  assert (Hten : Rabs (1 / 100 * 1000) = 10)
    by (replace (1 / 100 * 1000) with 10 by lra; apply Rabs_right; lra).
  assert (Hturn : is_negative (1 / 100 * 1000) = false)
    by (unfold is_negative; destruct (Rlt_dec (1 / 100 * 1000) 0); [lra | reflexivity]).
  rewrite Hten in *; rewrite Hturn in Hneg.
  destruct (Hfirst eq_refl) as [E1 E2].
  rewrite Hc1 in E1; injection E1 as -> ->.
  rewrite Hs1 in E2; injection E2 as -> ->.
  assert (Hblue : fill = (0, 0, 153)%Z).
  { unfold segment_color in Hfill.
    replace (colors (self w1))
      with [(0, 0, 153)%Z; (153, 0, 0)%Z; (0, 153, 0)%Z] in Hfill
      by (symmetry; apply Hcfg1).
    cbn in Hfill; congruence. }
  assert (Hwidth : drawing_line_width (self w1) = 6%Z) by apply Hcfg1.
  eexists; do 3 (split; [reflexivity |]); split.
  { unfold draw_arcs, single_arc; cbn [draw_arcs_loop]; unfold bind at 1 2.
    rewrite Hrun; reflexivity. }
  unfold rendered;
    cbn [self events circle_center starting_point image img_ops paint resize
         set_ending_point set_image set_prev_was_negative_radius fst snd].
  rewrite Hneg, Himg, Hev, Hblue, Hwidth.
  split; [exact Hc1 |]; split; [rewrite Hs1; f_equal; lra |]; split.
  - cbn [fresh self image Good_init Image_new img_ops app solver_calls].
    rewrite atan2_negative_x_axis by lra.
    rewrite degrees_PI, (py_round_IZR 180), scenario_span.
    repeat (f_equal; try lra).
  - reflexivity.
Qed.

End Chain.

(** ** The angles of the arc command, as the floats give them *)

Section BinaryRounding.

Local Open Scope Z_scope.

(** A right shift of the rounding record halves the mantissa. *)
Lemma shr_1_mantissa (mrs : shr_record) :
  0 <= shr_m mrs -> shr_m (shr_1 mrs) = shr_m mrs / 2.
Proof.
  destruct mrs as [m r s]; cbn [shr_m]; intros Hm.
  rewrite <- Z.div2_div.
  destruct m as [| [p | p |] | p]; try reflexivity; lia.
Qed.

Lemma iter_shr_1_mantissa (p : positive) :
  forall mrs : shr_record,
    0 <= shr_m mrs ->
    shr_m (iter_pos shr_1 p mrs) = shr_m mrs / 2 ^ Zpos p.
Proof.
  induction p as [p IH | p IH |]; intros mrs Hm; cbn [iter_pos].
  - assert (H1 : 0 <= shr_m (shr_1 mrs))
      by (rewrite shr_1_mantissa by exact Hm; apply Z.div_pos; lia).
    assert (H2 : 0 <= shr_m (iter_pos shr_1 p (shr_1 mrs)))
      by (rewrite IH by exact H1; apply Z.div_pos; [exact H1 | lia]).
    rewrite IH, IH, shr_1_mantissa by assumption.
    assert (Hpow : 2 ^ Zpos p~1 = 2 * 2 ^ Zpos p * 2 ^ Zpos p).
    { replace (Zpos p~1) with (1 + Zpos p + Zpos p) by lia.
      rewrite !Z.pow_add_r by lia; reflexivity. }
    assert (H2p : 0 < 2 ^ Zpos p) by (apply Z.pow_pos_nonneg; lia).
    rewrite !Z.div_div by lia; rewrite Hpow; f_equal; ring.
  - assert (H2 : 0 <= shr_m (iter_pos shr_1 p mrs))
      by (rewrite IH by exact Hm; apply Z.div_pos; [exact Hm | lia]).
    rewrite IH, IH by assumption.
    assert (Hpow : 2 ^ Zpos p~0 = 2 ^ Zpos p * 2 ^ Zpos p).
    { replace (Zpos p~0) with (Zpos p + Zpos p) by lia.
      rewrite !Z.pow_add_r by lia; reflexivity. }
    assert (H2p : 0 < 2 ^ Zpos p) by (apply Z.pow_pos_nonneg; lia).
    rewrite !Z.div_div by lia; rewrite Hpow; f_equal; ring.
  - apply shr_1_mantissa; exact Hm.
Qed.

Lemma shr_mantissa (mrs : shr_record) (e n : Z) :
  0 <= shr_m mrs ->
  shr_m (fst (shr mrs e n)) = shr_m mrs / 2 ^ Z.max 0 n
  /\ snd (shr mrs e n) = e + Z.max 0 n.
Proof.
  intros Hm; destruct n as [| p | p]; cbn [shr fst snd].
  - rewrite Z.max_id; cbn; rewrite Z.div_1_r; lia.
  - replace (Z.max 0 (Zpos p)) with (Zpos p) by lia.
    split; [apply iter_shr_1_mantissa; exact Hm | reflexivity].
  - replace (Z.max 0 (Zneg p)) with 0 by lia.
    cbn; rewrite Z.div_1_r; lia.
Qed.

Lemma digits2_pos_bounds (p : positive) :
  2 ^ (Zpos (digits2_pos p) - 1) <= Zpos p < 2 ^ Zpos (digits2_pos p).
Proof.
  induction p as [p IH | p IH |]; cbn [digits2_pos].
  - rewrite Pos2Z.inj_succ, (Pos2Z.inj_xI p).
    replace (Z.succ (Zpos (digits2_pos p)) - 1)
      with (Z.succ (Zpos (digits2_pos p) - 1)) by lia.
    rewrite !Z.pow_succ_r by lia.
    revert IH; generalize (2 ^ (Zpos (digits2_pos p) - 1)) (2 ^ Zpos (digits2_pos p)).
    intros a b IH; lia.
  - rewrite Pos2Z.inj_succ, (Pos2Z.inj_xO p).
    replace (Z.succ (Zpos (digits2_pos p)) - 1)
      with (Z.succ (Zpos (digits2_pos p) - 1)) by lia.
    rewrite !Z.pow_succ_r by lia.
    revert IH; generalize (2 ^ (Zpos (digits2_pos p) - 1)) (2 ^ Zpos (digits2_pos p)).
    intros a b IH; lia.
  - cbn; lia.
Qed.

Lemma round_nearest_even_bounds (m : Z) (l : location) :
  m <= round_nearest_even m l <= m + 1.
Proof.
  destruct l as [| []]; cbn [round_nearest_even]; try lia.
  destruct (Z.even m); lia.
Qed.

Lemma shr_record_of_loc_mantissa (m : Z) (l : location) :
  shr_m (shr_record_of_loc m l) = m.
Proof. destruct l as [| []]; reflexivity. Qed.

(** Rounding a mantissa that keeps at least two bits above the smallest
    exponent never gives a zero. *)
Lemma binary_round_aux_not_zero (prec emax : Z) (sx : bool) (p : positive)
      (ex : Z) (lx : location) :
  let d := Zpos (digits2_pos p) in
  fexp prec emax (d + ex) - ex <= d - 2 ->
  2 <= d ->
  forall s : bool, binary_round_aux prec emax sx (Zpos p) ex lx <> S754_zero s.
Proof.
  intros d Hshift Hd s.
  unfold binary_round_aux, shr_fexp.
  change (Zdigits2 (Zpos p)) with d.
  set (n1 := fexp prec emax (d + ex) - ex) in *.
  pose proof (shr_mantissa (shr_record_of_loc (Zpos p) lx) ex n1) as [Hm1 He1];
    [rewrite shr_record_of_loc_mantissa; lia |].
  rewrite shr_record_of_loc_mantissa in Hm1.
  destruct (shr (shr_record_of_loc (Zpos p) lx) ex n1) as [mrs1 e1].
  cbn [fst snd] in Hm1, He1.
  pose proof (digits2_pos_bounds p) as [Hlo Hhi]; fold d in Hlo, Hhi.
  set (N1 := Z.max 0 n1) in *.
  assert (HN1 : 0 <= N1 <= d - 2) by lia.
  assert (Hpow : 2 ^ d = 2 ^ N1 * 2 ^ (d - N1))
    by (rewrite <- Z.pow_add_r by lia; f_equal; lia).
  assert (Hpow' : 2 ^ (d - 1) = 2 ^ N1 * 2 ^ (d - 1 - N1))
    by (rewrite <- Z.pow_add_r by lia; f_equal; lia).
  assert (H2N : 0 < 2 ^ N1) by (apply Z.pow_pos_nonneg; lia).
  assert (Hm1lo : 2 ^ (d - 1 - N1) <= shr_m mrs1)
    by (rewrite Hm1; apply Z.div_le_lower_bound; lia).
  assert (Hm1hi : shr_m mrs1 < 2 ^ (d - N1))
    by (rewrite Hm1; apply Z.div_lt_upper_bound; lia).
  assert (Htwo : 2 <= 2 ^ (d - 1 - N1)).
  { change 2 with (2 ^ 1) at 1; apply Z.pow_le_mono_r; lia. }
  pose proof (round_nearest_even_bounds (shr_m mrs1) (loc_of_shr_record mrs1))
    as Hrne.
  set (m' := round_nearest_even (shr_m mrs1) (loc_of_shr_record mrs1)) in *.
  assert (Hm' : 2 <= m') by lia.
  set (n2 := fexp prec emax (Zdigits2 m' + e1) - e1).
  pose proof (shr_mantissa (shr_record_of_loc m' loc_Exact) e1 n2) as [Hm2 He2];
    [rewrite shr_record_of_loc_mantissa; lia |].
  rewrite shr_record_of_loc_mantissa in Hm2.
  destruct (shr (shr_record_of_loc m' loc_Exact) e1 n2) as [mrs2 e2].
  cbn [fst snd] in Hm2, He2.
  assert (Hdm' : Zdigits2 m' <= d - N1 + 1).
  { destruct m' as [| q | q] eqn:Eq; try lia.
    cbn [Zdigits2]; pose proof (digits2_pos_bounds q) as [Hqlo _].
    assert (Hlt : 2 ^ (Zpos (digits2_pos q) - 1) < 2 ^ (d - N1 + 1)).
    { apply Z.le_lt_trans with (Zpos q); [exact Hqlo |].
      apply Z.le_lt_trans with (2 ^ (d - N1)); [lia |].
      apply Z.pow_lt_mono_r; lia. }
    apply Z.pow_lt_mono_r_iff in Hlt; lia. }
  assert (Hn2 : n2 <= 1).
  { subst n2; unfold fexp in *; subst n1; unfold fexp in *; lia. }
  assert (Hpos : 0 < shr_m mrs2).
  { rewrite Hm2; apply Z.div_str_pos; split.
    - apply Z.pow_pos_nonneg; lia.
    - apply Z.le_trans with (2 ^ 1); [| exact Hm'].
      apply Z.pow_le_mono_r; lia. }
  destruct (shr_m mrs2) as [| q | q]; try lia.
  destruct (e2 <=? emax - prec); discriminate.
Qed.

(** The float [math.pi * radius] is not zero for a float [radius] greater
    than zero: the product of the mantissas keeps at least two bits above the
    smallest exponent. *)
Lemma positive_radius_divisor (radius : Binary64.float) :
  valid_binary Binary64.prec Binary64.emax radius = true ->
  Binary64.ltb Binary64.zero radius = true ->
  Binary64.eqb (Binary64.mul Binary64.math_pi radius) Binary64.zero = false.
Proof.
  intros Hvalid Hpos.
  destruct radius as [s | s | | s m e]; try discriminate.
  - destruct s; [discriminate | reflexivity].
  - destruct s; [discriminate |].
    unfold Binary64.mul, Binary64.math_pi, SFmul; cbn [xorb].
    cbn [valid_binary] in Hvalid; unfold bounded, canonical_mantissa in Hvalid.
    apply andb_prop in Hvalid as [Hcan _]; apply Z.eqb_eq in Hcan.
    assert (He : -1074 <= e)
      by (unfold fexp, emin, Binary64.prec, Binary64.emax in Hcan; lia).
    set (p := (7074237752028440 * m)%positive).
    pose proof (digits2_pos_bounds p) as [_ Hhi].
    assert (Hp : 2 ^ 52 <= Zpos p) by (subst p; rewrite Pos2Z.inj_mul; lia).
    assert (Hd : 53 <= Zpos (digits2_pos p)).
    { destruct (Z_lt_le_dec (Zpos (digits2_pos p)) 53) as [Hlt | Hge];
        [| exact Hge].
      assert (2 ^ Zpos (digits2_pos p) <= 2 ^ 52)
        by (apply Z.pow_le_mono_r; lia).
      lia. }
    pose proof (binary_round_aux_not_zero Binary64.prec Binary64.emax false p
                  (-51 + e) loc_Exact) as Hnz.
    cbv zeta in Hnz.
    specialize (Hnz ltac:(unfold fexp, emin, Binary64.prec, Binary64.emax; lia)
                    ltac:(lia)).
    destruct (binary_round_aux Binary64.prec Binary64.emax false (Zpos p)
                               (-51 + e) loc_Exact) as [s' | s' | | s' m' e'];
      try reflexivity.
    + exfalso; exact (Hnz s' eq_refl).
    + destruct s'; reflexivity.
    + destruct s'; reflexivity.
Qed.

End BinaryRounding.


(** Scenario 1 in floats: the arc of length 0.5 * 1000 and radius
    0.01 * 1000 that starts straight left of the centre is drawn from the int
    180 to the float 3044.0. *)
Lemma scenario_angles_in_floats :
  Binary64.arc_angles atan2_left_of_centre scenario_start canvas_centre
                      (Binary64.of_int 500) (Binary64.of_int 10) false
  = Binary64.Return (Binary64.Int 180,
                     Binary64.Float (Binary64.of_int 3044)).
Proof. vm_compute; reflexivity. Qed.

(** The floor division sees the rounded quotient: for the arc of length
    [math.radians(30)] on the circle of radius 1.0, both scaled by 1000, the
    floats give the span 30.0, and the arc that starts straight left of its
    centre is drawn from 180 to 210.0, or from 150.0 to 180 for the negative
    turn. *)
Lemma thirty_degree_arc_in_floats :
  let l := Binary64.mul radians_30 (Binary64.of_int 1000) in
  let radius := Binary64.of_int 1000 in
  let start := (Binary64.Float (Binary64.of_int 500), Binary64.Int 1500) in
  Binary64.floor_div (Binary64.mul (Binary64.of_int 180) l)
                     (Binary64.mul Binary64.math_pi radius)
  = Binary64.Return (Binary64.of_int 30)
  /\ Binary64.arc_angles atan2_left_of_centre start canvas_centre l radius false
     = Binary64.Return (Binary64.Int 180,
                        Binary64.Float (Binary64.of_int 210))
  /\ Binary64.arc_angles atan2_left_of_centre start canvas_centre l radius true
     = Binary64.Return (Binary64.Float (Binary64.of_int 150),
                        Binary64.Int 180).
Proof. vm_compute; repeat split; reflexivity. Qed.

(** ** The properties at concrete inputs *)

Lemma residuals_encode_tangency_witness :
  (circle_center after_first_arc = [1500; 1500]
   /\ ending_point after_first_arc = [1490; 1500]
   /\ radius after_first_arc = Some 10
   /\ 0 <= 10)
  /\ negative_radius (continue_chain (begin_arc (1 / 2, - (1 / 100)) after_first_arc))
     = is_negative (- (1 / 100) * IZR (scale after_first_arc)).
Proof.
  split; [repeat split; try reflexivity; lra |].
  apply (residuals_encode_tangency after_first_arc (1 / 2, - (1 / 100))
           1500 1500 1490 1500 10 0 0);
    try reflexivity; lra.
Defined.

Lemma later_arc_starts_at_previous_end_witness :
  (single_arc <> []
   /\ fst (draw_arcs_loop guess_solver 0 single_arc fresh) = Ret tt)
  /\ starting_point
       (self (snd (draw_arcs_loop guess_solver 0 (single_arc ++ [(1 / 2, 1 / 100)])
                                  fresh)))
     = ending_point (self (snd (draw_arcs_loop guess_solver 0 single_arc fresh))).
Proof.
  assert (Hok : fst (draw_arcs_loop guess_solver 0 single_arc fresh) = Ret tt).
  { destruct (draw_arcs_loop_ok guess_solver single_arc 0 fresh
                (well_formed_ready _ fresh_well_formed))
      as (w' & Hrun & _).
    - repeat constructor; unfold nonzero_radius; cbn [snd]; lra.
    - rewrite Hrun; reflexivity. }
  split; [split; [discriminate | exact Hok] |].
  apply (later_arc_starts_at_previous_end guess_solver single_arc (1 / 2, 1 / 100)
           fresh); [discriminate | exact Hok].
Defined.


Lemma ending_point_uses_unrounded_start_angle_witness :
  (ready 0 (self fresh) /\ snd (1 / 2, - (1 / 100)) <> 0)
  /\ exists w' : World,
       arc_iteration guess_solver 0 (1 / 2, - (1 / 100)) fresh = (Ret tt, w')
       /\ exists ex ey : R, ending_point (self w') = [ex; ey].
Proof.
  assert (Hready : ready 0 (self fresh))
    by exact (well_formed_ready _ fresh_well_formed).
  assert (Hnz : snd (1 / 2, - (1 / 100)) <> 0) by (cbn [snd]; lra).
  split; [split; assumption |].
  destruct (ending_point_uses_unrounded_start_angle guess_solver 0
              (1 / 2, - (1 / 100)) fresh Hready Hnz)
    as (w' & cx & cy & sx & sy & Hrun & _ & _ & Hend & _).
  exists w'; split; [exact Hrun |]; eexists _, _; exact Hend.
Defined.

Lemma zero_radius_raises_division_error_witness :
  (reachable guess_solver fresh /\ In (1 / 2, 0) [(1 / 2, 0)])
  /\ exists w' : World,
       draw_arcs guess_solver [(1 / 2, 0)] fresh = (Raise ZeroDivisionError, w').
Proof.
  assert (Hin : In (1 / 2, 0) [(1 / 2, 0)]) by (left; reflexivity).
  split; [split; [apply reachable_fresh | exact Hin] |].
  destruct (zero_radius_raises_division_error guess_solver fresh [(1 / 2, 0)]
              (1 / 2) (reachable_fresh guess_solver) Hin)
    as (w' & pre & post & len0 & _ & _ & Hrun & _).
  exists w'; exact Hrun.
Defined.

(** * Further properties *)

(** ** The polygon renderer and the residual, method by method *)

(** X1: when every polygon hands at least two points to [d.polygon] (PIL
    raises [TypeError] on fewer, which the canvas of the embedding does not
    show), [draw_polygons] returns normally and writes to no attribute: it
    adds one black fill command per polygon, in the order of the list, to the
    image it finds, whose mode, size and background it keeps, and saves and
    shows a resized copy under the name drawn_polygons.png. *)
Theorem polygons_only_touch_canvas :
  forall (data : list (list (R * R))) (w : World),
    Forall (fun polygon => (2 <= List.length (fill_points (self w) polygon))%nat)
           data ->
    exists w' : World,
      draw_polygons data w = (Ret tt, w')
      /\ self w' = set_image (image (self w')) (self w)
      /\ img_mode (image (self w')) = img_mode (image (self w))
      /\ img_size (image (self w')) = img_size (image (self w))
      /\ img_background (image (self w')) = img_background (image (self w))
      /\ img_ops (image (self w'))
         = img_ops (image (self w))
           ++ map (fun polygon =>
                     Polygon (fill_points (self w) polygon) "black" "black") data
      /\ Forall (fun c => exists pts : list (R * R),
                            c = Polygon pts "black" "black"
                            /\ (2 <= List.length pts)%nat)
                (map (fun polygon =>
                        Polygon (fill_points (self w) polygon) "black" "black")
                     data)
      /\ events w'
         = events w
           ++ [Saved (resize (output_size (self w)) (image (self w')))
                     "drawn_polygons.png";
               Shown (resize (output_size (self w)) (image (self w')))].
Proof.
  intros data w Hpts; unfold draw_polygons, bind; rewrite draw_polygons_loop_spec.
  eexists; split; [reflexivity |].
  cbn [emit self events image set_image img_mode img_size img_background img_ops].
  rewrite <- app_assoc; repeat split; try reflexivity.
  rewrite Forall_map; revert Hpts; apply Forall_impl.
  intros polygon Hlen; eexists; split; [reflexivity | exact Hlen].
Qed.

Lemma last_resize_polygon (s : Good) (polygon : list (R * R)) (d : R * R) :
  last (resize_polygon s polygon) (fst d * IZR (scale s), snd d * IZR (scale s))
  = (fst (last polygon d) * IZR (scale s), snd (last polygon d) * IZR (scale s)).
Proof.
  induction polygon as [| p [| q rest] IH]; try reflexivity.
  exact IH.
Qed.

Lemma closed_polygon_resized (s : Good) (polygon : list (R * R)) :
  closed_polygon polygon -> closed_polygon (resize_polygon s polygon).
Proof.
  intros (Hlen & first & Hhd & Hlast); split.
  - unfold resize_polygon; rewrite length_map; exact Hlen.
  - exists (fst first * IZR (scale s), snd first * IZR (scale s)); split.
    + destruct polygon; [discriminate |]; cbn in Hhd |- *; congruence.
    + rewrite last_resize_polygon, Hlast; reflexivity.
Qed.

(** X2: the closing point is dropped exactly when the scaled polygon is
    closed, that is, has at least two points and a last point equal to its
    first: [d.polygon] then gets the scaled points without the last one, and
    otherwise all of them.  A polygon given closed is closed once scaled, so
    its closing point is dropped. *)
Theorem closing_point_dropped_iff_closed :
  forall (s : Good) (polygon : list (R * R)),
    (closed_polygon (resize_polygon s polygon) ->
     fill_points s polygon = removelast (resize_polygon s polygon))
    /\ (~ closed_polygon (resize_polygon s polygon) ->
        fill_points s polygon = resize_polygon s polygon)
    /\ (closed_polygon polygon ->
        closed_polygon (resize_polygon s polygon)
        /\ fill_points s polygon = resize_polygon s (removelast polygon)).
Proof.
  intros s polygon.
  assert (Hdrop : closed_polygon (resize_polygon s polygon) ->
                  fill_points s polygon = removelast (resize_polygon s polygon)).
  { intros (Hlen & first & Hhd & Hlast).
    apply (fill_points_closed s polygon first); [| exact Hhd | exact Hlast].
    unfold resize_polygon in Hlen; rewrite length_map in Hlen; exact Hlen. }
  split; [exact Hdrop |]; split.
  - intros Hopen; unfold fill_points.
    destruct (resize_polygon s polygon) as [| p [| q rest]] eqn:E;
      try reflexivity.
    apply drop_closing_point_open; intros Hlast; apply Hopen.
    split; [cbn [List.length]; lia |].
    exists p; split; [reflexivity | exact Hlast].
  - intros Hclosed; pose proof (closed_polygon_resized s polygon Hclosed) as H.
    split; [exact H |].
    rewrite resize_polygon_removelast; exact (Hdrop H).
Qed.

(** X3: [find_new_circle_center] returns normally exactly on an object that
    holds a previous centre and a start of two coordinates and both radii,
    for a candidate of two coordinates; on a new object, where there is no
    previous circle yet, it raises [IndexError]. *)
Theorem residual_needs_previous_circle :
  forall (s : Good) (xy : list R),
    ((exists p : R * R, find_new_circle_center s xy = Ret p)
     <-> (2 <= List.length (prev_circle_center s))%nat
         /\ prev_radius s <> None
         /\ radius s <> None
         /\ (2 <= List.length (starting_point s))%nat
         /\ (2 <= List.length xy)%nat)
    /\ find_new_circle_center Good_init xy = Raise IndexError.
Proof.
  intros s xy; split; [| reflexivity].
  unfold find_new_circle_center.
  destruct (prev_circle_center s) as [| ox [| oy po]];
    destruct (prev_radius s) as [rp |];
    destruct (radius s) as [r |];
    destruct (starting_point s) as [| bx [| by' pb]];
    destruct xy as [| x [| y rest]];
    destruct (same_direction_as_previous s);
    cbn [index nth_error obind num negb List.length];
    (split;
     [ intros [p Hp]; try discriminate;
       repeat split; try discriminate; try lia
     | intros (H1 & H2 & H3 & H4 & H5);
       try (exfalso; lia); try congruence; eexists; reflexivity ]).
Qed.

(** ** What an iteration stores, and where an arc ends *)

Section ArcInputs.

Variable fsolve : (R * R -> R * R) -> R * R -> R * R.

Lemma locate_start_frames_inputs (i : nat) :
  frames arc_inputs (locate_start fsolve i).
Proof.
  destruct i; unfold locate_start, solve_circle_center; solve_frames.
Qed.

Lemma render_arc_frames_inputs (i : nat) : frames arc_inputs (render_arc i).
Proof. unfold render_arc; solve_frames. Qed.

Lemma arc_iteration_inputs (i : nat) (datum : R * R) (w : World) :
  arc_inputs (self (snd (arc_iteration fsolve i datum w)))
  = arc_inputs (begin_arc datum (self w)).
Proof.
  unfold arc_iteration; unfold bind at 1, modify at 1.
  set (w1 := mkWorld (begin_arc datum (self w)) (events w)).
  change (begin_arc datum (self w)) with (self w1).
  generalize w1; clear w1 w; intros w.
  unfold bind; pose proof (locate_start_frames_inputs i w) as H.
  destruct (locate_start fsolve i w) as [[[] | e] w2]; cbn [snd] in *.
  - rewrite render_arc_frames_inputs; exact H.
  - exact H.
Qed.

(** X5: whatever becomes of an iteration, it has stored the scaled length, the
    magnitude and the sign of the scaled radius (from which the signed value
    is recovered), and it has moved the radius and the centre it found into
    the attributes of the previous circle. *)
Theorem iteration_records_inputs_on_every_path :
  forall (i : nat) (datum : R * R) (w : World),
    let after := self (snd (arc_iteration fsolve i datum w)) in
    let signed := snd datum * IZR (scale (self w)) in
    l after = Some (fst datum * IZR (scale (self w)))
    /\ radius after = Some (Rabs signed)
    /\ negative_radius after = is_negative signed
    /\ (if negative_radius after then - Rabs signed else Rabs signed) = signed
    /\ same_direction_as_previous after
       = Bool.eqb (is_negative signed) (prev_was_negative_radius (self w))
    /\ prev_radius after = radius (self w)
    /\ prev_circle_center after = circle_center (self w).
Proof.
  intros i datum w after signed.
  pose proof (arc_iteration_inputs i datum w) as H.
  unfold arc_inputs in H; fold after in H.
  destruct (begin_arc_frame datum (self w)) as (Hl & Hpr & Hpc & _).
  rewrite Hl, Hpr, Hpc, begin_arc_radius, begin_arc_negative_radius,
    begin_arc_same_direction in H.
  injection H as E1 E2 E3 E4 E5 E6.
  repeat (split; [assumption |]).
  split; [| split; [| split]]; try assumption.
  rewrite E3; subst signed; unfold is_negative.
  destruct (Rlt_dec (snd datum * IZR (scale (self w))) 0) as [Hn | Hn].
  - rewrite Rabs_left by exact Hn; ring.
  - apply Rabs_right; lra.
Qed.

Lemma on_circle (cx cy r a : R) :
  (cx + r * cos a - cx) ^ 2 + (cy + r * sin a - cy) ^ 2 = r ^ 2.
Proof.
  pose proof (sin2_cos2 a) as H; unfold Rsqr in H.
  replace ((cx + r * cos a - cx) ^ 2 + (cy + r * sin a - cy) ^ 2)
    with (r ^ 2 * (sin a * sin a + cos a * cos a)) by ring.
  rewrite H; ring.
Qed.

End ArcInputs.

(** X4: [find_ending_point], on an object whose centre, length and radius are
    set, returns a point of the circle when the radius is not zero, and
    raises [ZeroDivisionError] when it is. *)
Theorem ending_point_lies_on_circle :
  forall (s : Good) (angle_rad cx cy len r : R),
    circle_center s = [cx; cy] ->
    l s = Some len ->
    radius s = Some r ->
    (r <> 0 ->
     exists ex ey : R,
       find_ending_point s angle_rad = Ret [ex; ey]
       /\ (ex - cx) ^ 2 + (ey - cy) ^ 2 = r ^ 2)
    /\ (r = 0 -> find_ending_point s angle_rad = Raise ZeroDivisionError).
Proof.
  intros s angle_rad cx cy len r Hc Hl Hr; unfold find_ending_point.
  rewrite Hc, Hl, Hr; cbn [obind num index nth_error]; split; intros H.
  - rewrite (truediv_nonzero _ _ H).
    destruct (negative_radius s); cbn [obind];
      eexists _, _; (split; [reflexivity | apply on_circle]).
  - unfold truediv; destruct (Req_dec_T r 0); [| contradiction].
    destruct (negative_radius s); reflexivity.
Qed.

(** ** The commands and the calls of a chain *)

Lemma segment_color_palette (i : nat) (s : Good) :
  configured s -> segment_color i s = Ret (palette_color i).
Proof.
  intros (_ & _ & _ & Hc & _); unfold segment_color, palette_color; rewrite Hc.
  cbn [List.length].
  pose proof (Nat.mod_upper_bound i 3 ltac:(lia)) as Hlt.
  destruct (i mod 3)%nat as [| [| [| n]]]; try lia; reflexivity.
Qed.

Lemma flat_map_solver_calls_later (n k : nat) :
  flat_map solver_calls (seq (S k) n) = repeat (SolverCall (0, 0)) n.
Proof.
  revert k; induction n as [| n IH]; intros k; [reflexivity |].
  cbn [seq flat_map repeat solver_calls app]; rewrite IH; reflexivity.
Qed.

Lemma flat_map_solver_calls (n : nat) :
  flat_map solver_calls (seq 0 n) = repeat (SolverCall (0, 0)) (n - 1).
Proof.
  destruct n as [| n]; [reflexivity |].
  cbn [seq flat_map solver_calls app]; replace (S n - 1)%nat with n by lia.
  apply flat_map_solver_calls_later.
Qed.

Section ArcTrace.

Variable fsolve : (R * R -> R * R) -> R * R -> R * R.

(** The state in which the angles of a later arc are computed. *)
Lemma start_arc_next (k : nat) (datum : R * R) (w : World) :
  ready (S k) (self w) ->
  start_arc fsolve (S k) datum w
  = (Ret tt,
     mkWorld (set_circle_center (solved_center fsolve (begin_arc datum (self w)))
                                (continue_chain (begin_arc datum (self w))))
             (events w ++ [SolverCall (0, 0)])).
Proof.
  intros [[Hcfg (cx & cy & Hc)] Hch].
  destruct (Hch ltac:(discriminate)) as (ex & ey & rp & He & Hrp).
  destruct (begin_arc_frame datum (self w))
    as (_ & Hpr & Hpc & _ & _ & Hep & _).
  unfold start_arc, bind; unfold modify at 1.
  apply (locate_start_next fsolve k
           (mkWorld (begin_arc datum (self w)) (events w)) cx cy ex ey rp
           (Rabs (snd datum * IZR (scale (self w)))));
    cbn [self]; try congruence.
  apply begin_arc_radius.
Qed.

(** One iteration on an arc of non-zero radius: what the next iteration and
    the canvas get. *)
Lemma arc_iteration_style (i : nat) (datum : R * R) (w : World) :
  ready i (self w) ->
  snd datum <> 0 ->
  exists (w' : World) (c : DrawCmd),
    arc_iteration fsolve i datum w = (Ret tt, w')
    /\ ready (S i) (self w')
    /\ img_ops (image (self w')) = img_ops (image (self w)) ++ [c]
    /\ arc_style c = Some (palette_color i, 6%Z)
    /\ events w' = events w ++ solver_calls i
    /\ prev_was_negative_radius (self w') = is_negative (snd datum * 1000).
Proof.
  intros Hready Hnz.
  destruct Hready as [[Hcfg (cx & cy & Hc)] Hch].
  assert (Hready : ready i (self w))
    by exact (conj (conj Hcfg (ex_intro _ cx (ex_intro _ cy Hc))) Hch).
  destruct (arc_iteration_rendered fsolve i datum w cx cy Hready Hc Hnz)
    as (w1 & cx1 & cy1 & sx & sy & fill & Hc1 & Hs1 & Hl1 & Hr1 & Hfill & Hneg
        & Hcfg1 & Himg & Hev & _ & Hrun).
  destruct (arc_iteration_ok fsolve i datum w cx cy Hready Hc Hnz)
    as (w' & Hrun' & Hready' & _).
  rewrite Hrun in Hrun'; injection Hrun' as <-.
  rewrite (segment_color_palette i _ Hcfg1) in Hfill; injection Hfill as <-.
  eexists _, _; split; [exact Hrun |]; split; [exact Hready' |].
  unfold rendered;
    cbn [self events image img_ops paint prev_was_negative_radius
         set_ending_point set_image set_prev_was_negative_radius].
  rewrite Himg; split; [reflexivity |]; cbn [arc_style].
  replace (drawing_line_width (self w1)) with 6%Z by (symmetry; apply Hcfg1).
  repeat split; assumption.
Qed.

(** The loop on arcs of non-zero radius: the commands and the calls, one by
    one. *)
Lemma draw_arcs_loop_trace (data : list (R * R)) :
  forall (i : nat) (w : World),
    ready i (self w) ->
    Forall nonzero_radius data ->
    exists (w' : World) (cmds : list DrawCmd),
      draw_arcs_loop fsolve i data w = (Ret tt, w')
      /\ ready (i + List.length data) (self w')
      /\ img_ops (image (self w')) = img_ops (image (self w)) ++ cmds
      /\ map arc_style cmds
         = map (fun k => Some (palette_color k, 6%Z)) (seq i (List.length data))
      /\ events w' = events w ++ flat_map solver_calls (seq i (List.length data)).
Proof.
  induction data as [| datum data IH]; intros i w Hready Hall.
  - exists w, []; cbn [draw_arcs_loop ret List.length seq map flat_map].
    rewrite !app_nil_r, Nat.add_0_r; repeat split; apply Hready.
  - inversion Hall as [| ? ? Hnz Hrest]; subst.
    destruct (arc_iteration_style i datum w Hready Hnz)
      as (w1 & c & Hrun & Hready1 & Hops & Hc & Hev & _).
    destruct (IH (S i) w1 Hready1 Hrest)
      as (w' & cmds & Hrun' & Hready' & Hops' & Hst & Hev').
    exists w', (c :: cmds); cbn [draw_arcs_loop]; unfold bind; rewrite Hrun.
    split; [exact Hrun' |]; split; [| split; [| split]].
    + cbn [List.length]; replace (i + S (List.length data))%nat
        with (S i + List.length data)%nat by lia; exact Hready'.
    + rewrite Hops', Hops, <- app_assoc; reflexivity.
    + cbn [List.length seq map]; rewrite Hc, Hst; reflexivity.
    + cbn [List.length seq flat_map]; rewrite Hev', Hev, <- app_assoc; reflexivity.
Qed.

(** A call on arcs of non-zero radius, in a session. *)
Lemma draw_arcs_success (w : World) (data : list (R * R)) :
  reachable fsolve w ->
  Forall nonzero_radius data ->
  exists (w' : World) (cmds : list DrawCmd),
    draw_arcs fsolve data w = (Ret tt, w')
    /\ img_ops (image (self w')) = img_ops (image (self w)) ++ cmds
    /\ List.length cmds = List.length data
    /\ img_size (image (self w')) = (3000, 3000)%Z
    /\ events w'
       = events w
         ++ repeat (SolverCall (0, 0)) (List.length data - 1)
         ++ [Saved (image (self w')) "drawn_arcs.png"; Shown (image (self w'))].
Proof.
  intros Hreach Hall.
  pose proof (well_formed_ready _ (reachable_well_formed fsolve w Hreach)) as Hready.
  destruct (draw_arcs_loop_trace data 0 w Hready Hall)
    as (w1 & cmds & Hrun & [[Hcfg _] _] & Hops & Hst & Hev).
  eexists _, cmds; unfold draw_arcs, bind; rewrite Hrun.
  split; [reflexivity |].
  cbn [modify emit self events image img_ops img_size resize set_image].
  split; [exact Hops |]; split; [| split].
  - apply (f_equal (@List.length _)) in Hst.
    rewrite !length_map, length_seq in Hst; exact Hst.
  - destruct Hcfg as (H1 & H2 & _); unfold output_size; rewrite H1, H2; reflexivity.
  - rewrite Hev, flat_map_solver_calls, <- !app_assoc; reflexivity.
Qed.

End ArcTrace.

Lemma span_nonnegative (len r : R) :
  0 <= len -> 0 < r -> 0 <= IZR (Zfloor (180 * len / (PI * r))).
Proof.
  intros Hlen Hr; apply IZR_le, Zfloor_lub; cbn [IZR].
  apply Rmult_le_pos; [lra |].
  left; apply Rinv_0_lt_compat, Rmult_lt_0_compat; [apply PI_RGT_0 | exact Hr].
Qed.

Section ArcCalls.

Variable fsolve : (R * R -> R * R) -> R * R -> R * R.

(** X6: with numbers taken as reals, where no length or radius overflows
    to an infinity or a NaN, and a root finder that returns a point, a call
    of [draw_arcs] on n arcs, none of radius zero, returns normally, adds n
    commands to the canvas, asks the root finder n - 1 times (never for the
    first arc), and then saves and shows once the image that holds the
    arcs. *)
Theorem successful_chain_trace :
  forall (w : World) (data : list (R * R)),
    reachable fsolve w ->
    Forall nonzero_radius data ->
    exists (w' : World) (cmds : list DrawCmd),
      draw_arcs fsolve data w = (Ret tt, w')
      /\ img_ops (image (self w')) = img_ops (image (self w)) ++ cmds
      /\ List.length cmds = List.length data
      /\ img_size (image (self w')) = (3000, 3000)%Z
      /\ events w'
         = events w
           ++ repeat (SolverCall (0, 0)) (List.length data - 1)
           ++ [Saved (image (self w')) "drawn_arcs.png"; Shown (image (self w'))].
Proof.
  intros w data Hreach Hall.
  exact (draw_arcs_success fsolve w data Hreach Hall).
Qed.

(** X7: the arcs of one call are stroked with width 6 in the colours of the
    palette taken in turn by position: blue, red, green, blue, ... *)
Theorem chain_colours_cycle :
  forall (w : World) (data : list (R * R)),
    reachable fsolve w ->
    Forall nonzero_radius data ->
    exists cmds : list DrawCmd,
      img_ops (image (self (snd (draw_arcs fsolve data w))))
      = img_ops (image (self w)) ++ cmds
      /\ map arc_style cmds
         = map (fun k => Some (palette_color k, 6%Z)) (seq 0 (List.length data))
      /\ palette_color 0 = (0, 0, 153)%Z
      /\ palette_color 1 = (153, 0, 0)%Z
      /\ palette_color 2 = (0, 153, 0)%Z
      /\ forall k : nat, palette_color (k + 3) = palette_color k.
Proof.
  intros w data Hreach Hall.
  pose proof (well_formed_ready _ (reachable_well_formed fsolve w Hreach)) as Hready.
  destruct (draw_arcs_loop_trace fsolve data 0 w Hready Hall)
    as (w1 & cmds & Hrun & _ & Hops & Hst & _).
  exists cmds; unfold draw_arcs, bind; rewrite Hrun.
  split; [exact Hops |]; split; [exact Hst |].
  repeat (split; [reflexivity |]).
  intros k; unfold palette_color.
  replace (k + 3)%nat with (k + 1 * 3)%nat by lia.
  rewrite Nat.Div0.mod_add; reflexivity.
Qed.

(** X8: in a session, [draw_arcs] returns normally exactly when no arc of
    the list has radius zero, and the only exception it raises is
    [ZeroDivisionError]. *)
Theorem draw_arcs_raises_only_on_zero_radius :
  forall (w : World) (data : list (R * R)),
    reachable fsolve w ->
    (fst (draw_arcs fsolve data w) = Ret tt <-> Forall nonzero_radius data)
    /\ (forall e : exn,
          fst (draw_arcs fsolve data w) = Raise e -> e = ZeroDivisionError).
Proof.
  intros w data Hreach.
  pose proof (well_formed_ready _ (reachable_well_formed fsolve w Hreach)) as Hready.
  unfold draw_arcs, bind.
  destruct (first_zero_radius data) as [Hall | (pre & len & post & -> & Hpre)].
  - destruct (draw_arcs_loop_ok fsolve data 0 w Hready Hall) as (w1 & -> & _).
    split; [split; [intros _; exact Hall | reflexivity] | discriminate].
  - destruct (draw_arcs_loop_fault fsolve pre post len 0 w Hready Hpre)
      as (w1 & -> & _).
    cbn [fst]; split; [split; [discriminate |] | congruence].
    intros Hall; apply Forall_app in Hall as [_ Hall].
    inversion Hall as [| ? ? Hz _]; exfalso; apply Hz; reflexivity.
Qed.

(** X9: between two arcs of one call the same-direction flag is the
    comparison of their signs: once the arcs [pre ++ [previous]] have been
    drawn, the iteration on [datum] sets the flag to whether [datum] and
    [previous] turn the same way. *)
Theorem consecutive_arcs_compare_signs :
  forall (w : World) (pre : list (R * R)) (previous datum : R * R),
    reachable fsolve w ->
    Forall nonzero_radius (pre ++ [previous]) ->
    same_direction_as_previous
      (self (snd (draw_arcs_loop fsolve 0 (pre ++ [previous] ++ [datum]) w)))
    = Bool.eqb (is_negative (snd datum * 1000))
               (is_negative (snd previous * 1000)).
Proof.
  intros w pre previous datum Hreach Hall.
  pose proof (well_formed_ready _ (reachable_well_formed fsolve w Hreach)) as Hready.
  apply Forall_app in Hall as [Hpre Hprev].
  inversion Hprev as [| ? ? Hnz _]; subst.
  destruct (draw_arcs_loop_ok fsolve pre 0 w Hready Hpre)
    as (w1 & Hrun1 & Hready1 & _).
  destruct (arc_iteration_style fsolve (List.length pre) previous w1 Hready1 Hnz)
    as (w2 & c & Hrun2 & [[Hcfg2 _] _] & _ & _ & _ & Hflag).
  cbn [app]; rewrite draw_arcs_loop_app, Hrun1.
  cbn [draw_arcs_loop Nat.add]; unfold bind; rewrite Hrun2; cbn [ret].
  match goal with
  | |- context [arc_iteration fsolve ?i datum w2] =>
      pose proof (arc_iteration_inputs fsolve i datum w2) as H;
      destruct (arc_iteration fsolve i datum w2) as [[[] | e] w3]
  end; unfold ret; cbn [snd] in *;
    apply (f_equal (fun t => snd (fst (fst t)))) in H;
    unfold arc_inputs in H; cbn [fst snd] in H;
    rewrite H, begin_arc_same_direction, Hflag;
    replace (scale (self w2)) with 1000%Z by (symmetry; apply Hcfg2);
    reflexivity.
Qed.

(** X10: [draw_arcs] never reseeds the chain by itself: the first arc of a
    call takes as its centre whatever centre the session holds, and starts
    the magnitude of its scaled radius to the left of it. *)
Theorem first_arc_uses_current_centre :
  forall (w : World) (datum : R * R) (cx cy : R),
    reachable fsolve w ->
    circle_center (self w) = [cx; cy] ->
    circle_center (self (snd (draw_arcs_loop fsolve 0 [datum] w))) = [cx; cy]
    /\ starting_point (self (snd (draw_arcs_loop fsolve 0 [datum] w)))
       = [cx - Rabs (snd datum * 1000); cy].
Proof.
  intros w datum cx cy Hreach Hc.
  exact (first_arc_geometry fsolve datum w cx cy
           (reachable_well_formed fsolve w Hreach) Hc).
Qed.

End ArcCalls.

(** ** The geometry handed to the drawing primitive *)

Section ArcGeometry.

Variable fsolve : (R * R -> R * R) -> R * R -> R * R.

(** X11: with numbers taken as reals, where no radius is so small that the
    coordinates of the centre absorb it and no length overflows, for an arc
    of non-negative length and radius other than zero, at any position of a
    chain, the drawing primitive gets the square box around the circle, left
    of right and top above bottom, and a start angle that does not exceed the
    end angle. *)
Theorem arc_command_is_well_formed :
  forall (i : nat) (datum : R * R) (w : World),
    ready i (self w) ->
    snd datum <> 0 ->
    0 <= fst datum ->
    exists (w' : World) (x0 y0 x1 y1 a b cx cy : R) (fill : Color) (width : Z),
      arc_iteration fsolve i datum w = (Ret tt, w')
      /\ img_ops (image (self w'))
         = img_ops (image (self w)) ++ [Arc [x0; y0; x1; y1] a b fill width]
      /\ circle_center (self w') = [cx; cy]
      /\ x0 < x1 /\ y0 < y1
      /\ x1 - x0 = 2 * Rabs (snd datum * 1000)
      /\ y1 - y0 = 2 * Rabs (snd datum * 1000)
      /\ (x0 + x1) / 2 = cx /\ (y0 + y1) / 2 = cy
      /\ a <= b.
Proof.
  intros i datum w Hready Hnz Hlen.
  destruct Hready as [[Hcfg (cx & cy & Hc)] Hch].
  destruct (arc_iteration_rendered fsolve i datum w cx cy
              (conj (conj Hcfg (ex_intro _ cx (ex_intro _ cy Hc))) Hch) Hc Hnz)
    as (w1 & cx1 & cy1 & sx & sy & fill & Hc1 & Hs1 & Hl1 & Hr1 & _ & Hneg
        & Hcfg1 & Himg & _ & _ & Hrun).
  assert (Hr : 0 < Rabs (snd datum * 1000)) by (apply Rabs_pos_lt; lra).
  pose proof (span_nonnegative (fst datum * 1000) _ ltac:(lra) Hr) as Hspan.
  eexists _, _, _, _, _, _, _, cx1, cy1, _, _; split; [exact Hrun |].
  unfold rendered;
    cbn [self circle_center image img_ops paint
         set_ending_point set_image set_prev_was_negative_radius].
  rewrite Himg; split; [reflexivity |]; split; [exact Hc1 |].
  repeat (split; [lra |]).
  destruct (negative_radius (self w1)); lra.
Qed.


(** X13: the start of a resolved arc lies on the arc's circle: always for the
    first arc of a call, and for a later arc as soon as the point the root
    finder returned is a zero of the second residual. *)
Theorem arc_start_lies_on_circle :
  forall (i : nat) (datum : R * R) (w : World),
    ready i (self w) ->
    snd datum <> 0 ->
    (i <> 0%nat ->
     let s := continue_chain (begin_arc datum (self w)) in
     snd (residual s (fsolve (residual s) (0, 0))) = 0) ->
    exists (w' : World) (cx cy sx sy : R),
      arc_iteration fsolve i datum w = (Ret tt, w')
      /\ circle_center (self w') = [cx; cy]
      /\ starting_point (self w') = [sx; sy]
      /\ (sx - cx) ^ 2 + (sy - cy) ^ 2 = Rabs (snd datum * 1000) ^ 2.
Proof.
  intros i datum w Hready Hnz Hroot.
  destruct Hready as [[Hcfg (cx & cy & Hc)] Hch].
  assert (Hready : ready i (self w))
    by exact (conj (conj Hcfg (ex_intro _ cx (ex_intro _ cy Hc))) Hch).
  destruct i as [| k].
  - destruct (arc_iteration_rendered fsolve 0 datum w cx cy Hready Hc Hnz)
      as (w1 & cx1 & cy1 & sx & sy & fill & Hc1 & Hs1 & _ & _ & _ & _ & _ & _
          & _ & Hfirst & Hrun).
    eexists _, cx1, cy1, sx, sy; split; [exact Hrun |].
    unfold rendered;
      cbn [self circle_center starting_point
           set_ending_point set_image set_prev_was_negative_radius].
    split; [exact Hc1 |]; split; [exact Hs1 |].
    destruct (Hfirst eq_refl) as [E1 E2].
    rewrite Hc1 in E1; injection E1 as -> ->.
    rewrite Hs1 in E2; injection E2 as -> ->; ring.
  - specialize (Hroot ltac:(discriminate)); cbv zeta in Hroot.
    destruct (Hch ltac:(discriminate)) as (ex & ey & rp & He & Hrp).
    destruct (begin_arc_frame datum (self w))
      as (Hl & Hpr & Hpc & _ & _ & Hep & _).
    pose proof (begin_arc_radius datum (self w)) as Hrad.
    replace (scale (self w)) with 1000%Z in Hrad, Hl by (symmetry; apply Hcfg).
    pose proof (segment_color_palette (S k) _ (configured_begin_arc datum _ Hcfg))
      as Hfill.
    set (s := continue_chain (begin_arc datum (self w))) in *.
    set (c := fsolve (residual s) (0, 0)) in *.
    assert (Heval := find_new_circle_center_eval s cx cy ex ey rp
                       (Rabs (snd datum * 1000)) (fst c) (snd c)).
    cbv zeta in Heval.
    unfold residual in Hroot; rewrite Heval in Hroot;
      try (subst s; unfold continue_chain;
           cbn [prev_circle_center starting_point prev_radius radius
                set_starting_point]; congruence).
    cbn [snd] in Hroot.
    rewrite arc_iteration_split; unfold bind.
    rewrite (start_arc_next fsolve k datum w Hready).
    erewrite (render_arc_ok (S k) _ (fst c) (snd c) ex ey
                (fst datum * 1000) (Rabs (snd datum * 1000)) (palette_color (S k)));
      [| reflexivity
       | cbn [self starting_point set_circle_center continue_chain
              set_starting_point]; congruence
       | exact Hl | exact Hrad | apply Rabs_no_R0; lra | exact Hfill].
    eexists _, (fst c), (snd c), ex, ey; split; [reflexivity |].
    unfold rendered;
      cbn [self circle_center starting_point continue_chain
           set_ending_point set_image set_prev_was_negative_radius
           set_circle_center set_starting_point].
    split; [reflexivity |]; split; [congruence |].
    replace ((ex - fst c) ^ 2 + (ey - snd c) ^ 2)
      with ((fst c - ex) ^ 2 + (snd c - ey) ^ 2) by ring.
    lra.
Qed.

End ArcGeometry.

(** ** Roots of the residuals *)

Lemma sum_of_squares_zero (a b : R) : a ^ 2 + b ^ 2 = 0 -> a = 0 /\ b = 0.
Proof. intros H; split; nra. Qed.

Section ArcRoots.

Variable fsolve : (R * R -> R * R) -> R * R -> R * R.

(** X14: an arc that repeats the magnitude and the direction of the radius of
    the arc before it stays on the same circle, as soon as the point the root
    finder returned is a zero of the first residual: the two circles are
    asked to have their centres at distance zero. *)
Theorem repeated_arc_keeps_circle :
  forall (k : nat) (datum : R * R) (w : World) (ox oy rp : R),
    ready (S k) (self w) ->
    circle_center (self w) = [ox; oy] ->
    radius (self w) = Some rp ->
    rp <> 0 ->
    Rabs (snd datum * 1000) = rp ->
    is_negative (snd datum * 1000) = prev_was_negative_radius (self w) ->
    (let s := continue_chain (begin_arc datum (self w)) in
     fst (residual s (fsolve (residual s) (0, 0))) = 0) ->
    exists w' : World,
      arc_iteration fsolve (S k) datum w = (Ret tt, w')
      /\ circle_center (self w') = [ox; oy].
Proof.
  intros k datum w ox oy rp Hready Hc Hrp Hnz Hsame Hsign Hroot.
  cbv zeta in Hroot.
  destruct Hready as [[Hcfg Hcen] Hch].
  assert (Hready : ready (S k) (self w)) by exact (conj (conj Hcfg Hcen) Hch).
  destruct (Hch ltac:(discriminate)) as (ex & ey & rp' & He & Hrp').
  destruct (begin_arc_frame datum (self w))
    as (Hl & Hpr & Hpc & _ & _ & Hep & _).
  pose proof (begin_arc_radius datum (self w)) as Hrad.
  pose proof (begin_arc_same_direction datum (self w)) as Hdir.
  replace (scale (self w)) with 1000%Z in Hrad, Hl, Hdir by (symmetry; apply Hcfg).
  rewrite Hsign, eqb_reflx in Hdir.
  pose proof (segment_color_palette (S k) _ (configured_begin_arc datum _ Hcfg))
    as Hfill.
  set (s := continue_chain (begin_arc datum (self w))) in *.
  set (c := fsolve (residual s) (0, 0)) in *.
  assert (Heval := find_new_circle_center_eval s ox oy ex ey rp
                     (Rabs (snd datum * 1000)) (fst c) (snd c)).
  cbv zeta in Heval.
  unfold residual in Hroot; rewrite Heval in Hroot;
    try (subst s; unfold continue_chain;
         cbn [prev_circle_center starting_point prev_radius radius
              set_starting_point]; congruence).
  replace (same_direction_as_previous s) with true in Hroot
    by (symmetry; exact Hdir).
  cbn [fst] in Hroot; rewrite Hsame in Hroot.
  assert (Hsq : (fst c - ox) ^ 2 + (snd c - oy) ^ 2 = 0) by lra.
  apply sum_of_squares_zero in Hsq as [Hx Hy].
  rewrite arc_iteration_split; unfold bind.
  rewrite (start_arc_next fsolve k datum w Hready).
  erewrite (render_arc_ok (S k) _ (fst c) (snd c) ex ey
              (fst datum * 1000) (Rabs (snd datum * 1000)) (palette_color (S k)));
    [| reflexivity
     | cbn [self starting_point set_circle_center continue_chain
            set_starting_point]; congruence
     | exact Hl | exact Hrad | rewrite Hsame; exact Hnz | exact Hfill].
  eexists; split; [reflexivity |].
  unfold rendered;
    cbn [self circle_center set_ending_point set_image
         set_prev_was_negative_radius set_circle_center].
  unfold solved_center; fold s; fold c.
  f_equal; [lra | f_equal; lra].
Qed.

(** X15: no sequence of calls, returning or raising, changes the scale, the
    sizes, the palette or the stroke width, or leaves the image at another
    size than 3000 by 3000, or the centre of the chain without its two
    coordinates. *)
Theorem session_keeps_configuration :
  forall w : World,
    reachable fsolve w ->
    image_size (self w) = 3000%Z
    /\ size_multiplier (self w) = 1%Z
    /\ scale (self w) = 1000%Z
    /\ colors (self w) = [(0, 0, 153)%Z; (153, 0, 0)%Z; (0, 153, 0)%Z]
    /\ img_size (image (self w)) = (3000, 3000)%Z
    /\ drawing_line_width (self w) = 6%Z
    /\ exists cx cy : R, circle_center (self w) = [cx; cy].
Proof.
  intros w Hreach.
  destruct (reachable_well_formed fsolve w Hreach)
    as [(H1 & H2 & H3 & H4 & H5 & H6) Hc].
  repeat (split; [assumption |]); exact Hc.
Qed.

End ArcRoots.

(** ** The canvas only grows *)

Section Invariably.

Variable Rel : Good -> Good -> Prop.
Hypothesis Rel_refl : forall s, Rel s s.
Hypothesis Rel_trans : forall s1 s2 s3, Rel s1 s2 -> Rel s2 s3 -> Rel s1 s3.

Lemma invariably_ret {A} (a : A) : invariably Rel (ret a).
Proof. intros w; apply Rel_refl. Qed.

Lemma invariably_gets {A} (f : Good -> outcome A) : invariably Rel (gets f).
Proof. intros w; apply Rel_refl. Qed.

Lemma invariably_emit (f : Good -> Event) : invariably Rel (emit f).
Proof. intros w; apply Rel_refl. Qed.

Lemma invariably_modify (f : Good -> Good) :
  (forall s, Rel s (f s)) -> invariably Rel (modify f).
Proof. intros H w; apply H. Qed.

Lemma invariably_bind {A B} (m : M A) (k : A -> M B) :
  invariably Rel m -> (forall a, invariably Rel (k a)) ->
  invariably Rel (bind m k).
Proof.
  intros Hm Hk w; unfold bind.
  specialize (Hm w); destruct (m w) as [[a | e] w1]; cbn [snd] in *.
  - eapply Rel_trans; [exact Hm | apply Hk].
  - exact Hm.
Qed.

End Invariably.

Lemma canvas_grows_refl (s : Good) : canvas_grows s s.
Proof. repeat split; exists []; rewrite app_nil_r; reflexivity. Qed.

Lemma canvas_grows_trans (s1 s2 s3 : Good) :
  canvas_grows s1 s2 -> canvas_grows s2 s3 -> canvas_grows s1 s3.
Proof.
  intros (M1 & B1 & c1 & O1) (M2 & B2 & c2 & O2).
  split; [congruence |]; split; [congruence |].
  exists (c1 ++ c2); rewrite O2, O1, app_assoc; reflexivity.
Qed.

Lemma canvas_grows_same_image (s s' : Good) :
  image s' = image s -> canvas_grows s s'.
Proof. intros E; unfold canvas_grows; rewrite E; apply canvas_grows_refl. Qed.

Lemma canvas_grows_paint (c : DrawCmd) (s : Good) :
  canvas_grows s (set_image (paint c (image s)) s).
Proof. repeat split; exists [c]; reflexivity. Qed.

Ltac solve_canvas :=
  repeat first
    [ apply (invariably_ret _ canvas_grows_refl)
    | apply (invariably_gets _ canvas_grows_refl)
    | apply (invariably_emit _ canvas_grows_refl)
    | apply invariably_modify; intros;
      first [ apply canvas_grows_paint
            | apply canvas_grows_same_image; reflexivity ]
    | apply (invariably_bind _ canvas_grows_trans); [| intros ?]
    | match goal with
      | |- invariably _ (if ?b then _ else _) => destruct b
      end ].

Section CanvasGrowth.

Variable fsolve : (R * R -> R * R) -> R * R -> R * R.

Lemma arc_iteration_canvas (i : nat) (datum : R * R) :
  invariably canvas_grows (arc_iteration fsolve i datum).
Proof.
  unfold arc_iteration.
  apply (invariably_bind _ canvas_grows_trans).
  { apply invariably_modify; intros s; apply canvas_grows_same_image.
    apply begin_arc_frame. }
  intros _; apply (invariably_bind _ canvas_grows_trans).
  - destruct i; unfold locate_start, solve_circle_center; solve_canvas.
  - intros _; unfold render_arc; solve_canvas.
Qed.

Lemma draw_arcs_loop_canvas (data : list (R * R)) :
  forall i : nat, invariably canvas_grows (draw_arcs_loop fsolve i data).
Proof.
  induction data as [| datum data IH]; intros i; cbn [draw_arcs_loop].
  - apply (invariably_ret _ canvas_grows_refl).
  - apply (invariably_bind _ canvas_grows_trans);
      [apply arc_iteration_canvas | intros _; apply IH].
Qed.

(** X16: nothing drawn is ever erased: whatever the state of the object and
    whether the call returns or raises, the commands on the canvas before a
    call of [draw_arcs], [draw_polygons] or [reset_image_coordinates] are the
    first commands on the canvas after it, and the mode and the background
    of the image are kept. *)
Theorem canvas_is_append_only :
  forall (w : World),
    (forall data, canvas_grows (self w) (self (snd (draw_arcs fsolve data w))))
    /\ (forall data, canvas_grows (self w) (self (snd (draw_polygons data w))))
    /\ canvas_grows (self w) (self (snd (reset_image_coordinates w))).
Proof.
  intros w; split; [| split].
  - intros data; revert w.
    change (invariably canvas_grows (draw_arcs fsolve data)); unfold draw_arcs.
    apply (invariably_bind _ canvas_grows_trans);
      [apply draw_arcs_loop_canvas | intros _].
    apply (invariably_bind _ canvas_grows_trans); [| intros _; solve_canvas].
    apply invariably_modify; intros s.
    repeat split; exists []; rewrite app_nil_r; reflexivity.
  - intros data; unfold draw_polygons, bind; rewrite draw_polygons_loop_spec.
    repeat split; eexists; reflexivity.
  - apply canvas_grows_same_image; reflexivity.
Qed.

End CanvasGrowth.

(** ** Fills under a chain *)

Section Simulates.

Variable Rel : Good -> Good -> Prop.

Lemma simulates_ret {A} (a : A) : simulates Rel (ret a).
Proof. intros w1 w2 H; split; [reflexivity | exact H]. Qed.

Lemma simulates_gets {A} (f : Good -> outcome A) :
  (forall s1 s2, Rel s1 s2 -> f s1 = f s2) -> simulates Rel (gets f).
Proof. intros Hf w1 w2 H; split; [apply Hf; exact H | exact H]. Qed.

Lemma simulates_emit (f : Good -> Event) : simulates Rel (emit f).
Proof. intros w1 w2 H; split; [reflexivity | exact H]. Qed.

Lemma simulates_modify (g : Good -> Good) :
  (forall s1 s2, Rel s1 s2 -> Rel (g s1) (g s2)) -> simulates Rel (modify g).
Proof. intros Hg w1 w2 H; split; [reflexivity | apply Hg; exact H]. Qed.

Lemma simulates_bind {A B} (m : M A) (k : A -> M B) :
  simulates Rel m -> (forall a, simulates Rel (k a)) ->
  simulates Rel (bind m k).
Proof.
  intros Hm Hk w1 w2 H; unfold bind.
  destruct (Hm w1 w2 H) as [Hout Hrel].
  destruct (m w1) as [[a1 | e1] v1], (m w2) as [[a2 | e2] v2];
    cbn [fst snd] in *; try discriminate.
  - injection Hout as <-; apply Hk; exact Hrel.
  - injection Hout as <-; split; [reflexivity | exact Hrel].
Qed.

End Simulates.

Section Overlay.

Variables base polys : list DrawCmd.

Lemma overlaid_modify (g : Good -> Good) :
  (forall v s, g (set_image v s) = set_image v (g s)) ->
  (forall s, image (g s) = image s) ->
  forall s1 s2,
    overlaid base polys s1 s2 -> overlaid base polys (g s1) (g s2).
Proof.
  intros Hc Hi s1 s2 (E & Hrest); unfold overlaid; rewrite !Hi.
  split; [rewrite E at 1; apply Hc | exact Hrest].
Qed.

Lemma overlaid_paint (c : Good -> DrawCmd) :
  (forall v s, c (set_image v s) = c s) ->
  forall s1 s2,
    overlaid base polys s1 s2 ->
    overlaid base polys (set_image (paint (c s1) (image s1)) s1)
                        (set_image (paint (c s2) (image s2)) s2).
Proof.
  intros Hc s1 s2 (E & Hm & Hs & Hb & tail & O1 & O2).
  assert (Ec : c s2 = c s1) by (rewrite E; apply Hc).
  unfold overlaid;
    cbn [image set_image paint img_mode img_size img_background img_ops].
  assert (Hx : forall v, set_image v s2 = set_image v s1)
    by (intros v; rewrite E; reflexivity).
  split; [rewrite Hx; reflexivity |].
  repeat (split; [assumption |]).
  exists (tail ++ [c s1]); rewrite O1, O2, Ec, <- !app_assoc; split; reflexivity.
Qed.

Lemma overlaid_resize :
  forall s1 s2,
    overlaid base polys s1 s2 ->
    overlaid base polys (set_image (resize (output_size s1) (image s1)) s1)
                        (set_image (resize (output_size s2) (image s2)) s2).
Proof.
  intros s1 s2 (E & Hm & Hs & Hb & tail & O1 & O2).
  assert (Eo : output_size s2 = output_size s1) by (rewrite E; reflexivity).
  unfold overlaid;
    cbn [image set_image resize img_mode img_size img_background img_ops].
  assert (Hx : forall v, set_image v s2 = set_image v s1)
    by (intros v; rewrite E; reflexivity).
  split; [rewrite Hx; reflexivity |].
  repeat (split; [assumption |]).
  exists tail; split; assumption.
Qed.

Lemma begin_arc_set_image (datum : R * R) (v : Image) (s : Good) :
  begin_arc datum (set_image v s) = set_image v (begin_arc datum s).
Proof.
  unfold begin_arc; cbn.
  destruct (is_negative (snd datum * IZR (scale s))); cbn;
    destruct (prev_was_negative_radius s) eqn:P; cbn; rewrite ?P; reflexivity.
Qed.

End Overlay.

Ltac solve_overlay :=
  repeat first
    [ apply simulates_ret
    | apply simulates_emit
    | apply simulates_gets;
      let E := fresh "E" in intros ? ? [E _]; rewrite E; reflexivity
    | apply simulates_modify;
      first [ apply overlaid_modify; intros; reflexivity
            | apply (overlaid_paint _ _ (fun s => Arc _ _ _ _ (drawing_line_width s)));
              intros; reflexivity ]
    | apply simulates_bind; [| intros ?]
    | match goal with
      | |- simulates _ (if ?b then _ else _) => destruct b
      end ].

Section ArcOverlay.

Variable fsolve : (R * R -> R * R) -> R * R -> R * R.
Variables base polys : list DrawCmd.

Lemma arc_iteration_overlay (i : nat) (datum : R * R) :
  simulates (overlaid base polys) (arc_iteration fsolve i datum).
Proof.
  unfold arc_iteration; apply simulates_bind.
  { apply simulates_modify, overlaid_modify;
      [intros; apply begin_arc_set_image | intros; apply begin_arc_frame]. }
  intros _; apply simulates_bind.
  - destruct i; unfold locate_start, solve_circle_center, continue_chain;
      solve_overlay.
  - intros _; unfold render_arc; solve_overlay.
Qed.

Lemma draw_arcs_overlay (data : list (R * R)) :
  simulates (overlaid base polys) (draw_arcs fsolve data).
Proof.
  unfold draw_arcs; apply simulates_bind.
  - generalize 0%nat; induction data as [| datum data IH]; intros i;
      cbn [draw_arcs_loop]; [apply simulates_ret |].
    apply simulates_bind; [apply arc_iteration_overlay | intros _; apply IH].
  - intros _; apply simulates_bind;
      [apply simulates_modify, overlaid_resize | intros _; solve_overlay].
Qed.

End ArcOverlay.

(** X17: fill commands drawn beforehand do not disturb a chain: [draw_arcs]
    after [draw_polygons] has the outcome it has without, leaves every
    attribute but the image as it leaves it without, and draws the same arc
    commands, which follow the fills on the canvas. *)
Theorem polygons_do_not_disturb_arcs :
  forall (fsolve : (R * R -> R * R) -> R * R -> R * R) (w : World)
         (polygons : list (list (R * R))) (data : list (R * R)),
    let alone := draw_arcs fsolve data w in
    let after := draw_arcs fsolve data (snd (draw_polygons polygons w)) in
    fst after = fst alone
    /\ self (snd after) = set_image (image (self (snd after))) (self (snd alone))
    /\ exists arcs : list DrawCmd,
         img_ops (image (self (snd alone))) = img_ops (image (self w)) ++ arcs
         /\ img_ops (image (self (snd after)))
            = img_ops (image (self w))
              ++ map (fun polygon =>
                        Polygon (fill_points (self w) polygon) "black" "black")
                     polygons
              ++ arcs.
Proof.
  intros fsolve w polygons data alone after.
  set (base := img_ops (image (self w))).
  set (polys := map (fun polygon =>
                       Polygon (fill_points (self w) polygon) "black" "black")
                    polygons).
  assert (Hstart : overlaid base polys (self w) (self (snd (draw_polygons polygons w)))).
  { unfold draw_polygons, bind; rewrite draw_polygons_loop_spec.
    cbn [emit snd self image set_image img_mode img_size img_background img_ops].
    unfold overlaid;
      cbn [image set_image img_mode img_size img_background img_ops].
    repeat (split; [reflexivity |]).
    exists []; rewrite !app_nil_r; split; reflexivity. }
  destruct (draw_arcs_overlay fsolve base polys data w _ Hstart)
    as [Hout (E & _ & _ & _ & tail & O1 & O2)].
  split; [symmetry; exact Hout |]; split; [exact E |].
  exists tail; split; assumption.
Qed.

(** ** The script of the module *)

Lemma generate_positive (n : nat) :
  forall radius : R, 0 <= radius -> Forall nonzero_radius (generate n radius).
Proof.
  induction n as [| n IH]; intros radius Hr; cbn [generate]; constructor.
  - unfold nonzero_radius; cbn [snd]; lra.
  - apply IH; lra.
Qed.

Lemma generate_length (n : nat) (radius : R) :
  List.length (generate n radius) = n.
Proof.
  revert radius; induction n as [| n IH]; intros radius; cbn [generate List.length];
    [reflexivity | rewrite IH; reflexivity].
Qed.

Section Script.

Variable fsolve : (R * R -> R * R) -> R * R -> R * R.

(** X18: the script of the module runs to its end without an exception: it
    fills the star as five points, draws the chain of twenty arcs with
    nineteen calls of the root finder, resets, and draws the chain of two
    arcs with one more call; the image saved last under drawn_arcs.png holds
    the fill and all twenty-two arcs. *)
Theorem main_script_runs :
  exists (w' : World) (star : list (R * R)) (chain1 chain2 : list DrawCmd)
         (img0 img1 : Image),
    main fsolve fresh = (Ret tt, w')
    /\ img_ops (image (self w'))
       = Polygon star "black" "black" :: chain1 ++ chain2
    /\ List.length star = 5%nat
    /\ List.length chain1 = 20%nat
    /\ List.length chain2 = 2%nat
    /\ events w'
       = [Saved img0 "drawn_polygons.png"; Shown img0]
         ++ repeat (SolverCall (0, 0)) 19
         ++ [Saved img1 "drawn_arcs.png"; Shown img1]
         ++ [SolverCall (0, 0)]
         ++ [Saved (image (self w')) "drawn_arcs.png"; Shown (image (self w'))].
Proof.
  pose proof (reachable_draw_polygons fsolve main_polygons fresh
                (reachable_fresh fsolve)) as Hr1.
  assert (Hp : draw_polygons main_polygons fresh
               = (Ret tt, snd (draw_polygons main_polygons fresh))).
  { unfold draw_polygons, bind; rewrite draw_polygons_loop_spec; reflexivity. }
  pose proof (draw_polygons_ops main_polygons fresh) as Hops1.
  assert (Hev1 : events (snd (draw_polygons main_polygons fresh))
                 = [Saved (resize (output_size Good_init)
                              (image (self (snd (draw_polygons main_polygons fresh)))))
                          "drawn_polygons.png";
                    Shown (resize (output_size Good_init)
                              (image (self (snd (draw_polygons main_polygons fresh)))))]).
  { unfold draw_polygons, bind; rewrite draw_polygons_loop_spec; reflexivity. }
  set (w1 := snd (draw_polygons main_polygons fresh)) in *.
  assert (Hgen : Forall nonzero_radius generated_data).
  { apply Forall_app; split; [apply generate_positive; lra |].
    repeat constructor; unfold nonzero_radius; cbn [snd]; lra. }
  destruct (draw_arcs_success fsolve w1 generated_data Hr1 Hgen)
    as (w2 & chain1 & Hrun2 & Hops2 & Hlen2 & _ & Hev2).
  assert (Hr2 : reachable fsolve w2).
  { replace w2 with (snd (draw_arcs fsolve generated_data w1))
      by (rewrite Hrun2; reflexivity).
    apply reachable_draw_arcs; exact Hr1. }
  pose proof (reachable_reset fsolve w2 Hr2) as Hr3.
  set (w3 := snd (reset_image_coordinates w2)) in *.
  destruct (draw_arcs_success fsolve w3 [(1 / 2, - (2 / 10)); (1 / 2, - (4 / 10))] Hr3)
    as (w4 & chain2 & Hrun4 & Hops4 & Hlen4 & _ & Hev4).
  { repeat constructor; unfold nonzero_radius; cbn [snd]; lra. }
  exists w4, (fill_points Good_init (hd [] main_polygons)), chain1, chain2.
  eexists _, _; split.
  { unfold main, bind; rewrite Hp; fold w1; rewrite Hrun2.
    unfold reset_image_coordinates at 1, modify.
    exact Hrun4. }
  split; [| split; [| split; [| split]]].
  - rewrite Hops4; subst w3; cbn [reset_image_coordinates modify snd self image
      set_circle_center].
    rewrite Hops2, Hops1; reflexivity.
  - rewrite (fill_points_closed Good_init (hd [] main_polygons)
               (3 / 10 * 1000, 11 / 10 * 1000));
      [reflexivity | cbn; lia | reflexivity | reflexivity].
  - rewrite Hlen2; unfold generated_data.
    rewrite length_app, generate_length; reflexivity.
  - exact Hlen4.
  - rewrite Hev4; subst w3; cbn [reset_image_coordinates modify snd events].
    rewrite Hev2, Hev1.
    unfold generated_data; rewrite length_app, generate_length.
    cbn [List.length Nat.add Nat.sub app]; rewrite <- !app_assoc; reflexivity.
Qed.

End Script.

(** ** A chain leaves its last centre behind *)

(** An arc after the first is drawn around the point the root finder
    returned. *)
Lemma later_arc_centre (fsolve : (R * R -> R * R) -> R * R -> R * R)
      (k : nat) (datum : R * R) (w : World) :
  ready (S k) (self w) ->
  snd datum <> 0 ->
  exists w' : World,
    arc_iteration fsolve (S k) datum w = (Ret tt, w')
    /\ circle_center (self w') = solved_center fsolve (begin_arc datum (self w)).
Proof.
  intros Hready Hnz.
  pose proof Hready as [[Hcfg _] Hch].
  destruct (Hch ltac:(discriminate)) as (ex & ey & rp & He & Hrp).
  destruct (begin_arc_frame datum (self w))
    as (Hl & _ & _ & _ & _ & Hep & _).
  pose proof (begin_arc_radius datum (self w)) as Hrad.
  replace (scale (self w)) with 1000%Z in Hrad, Hl by (symmetry; apply Hcfg).
  pose proof (segment_color_palette (S k) _ (configured_begin_arc datum _ Hcfg))
    as Hfill.
  rewrite arc_iteration_split; unfold bind.
  rewrite (start_arc_next fsolve k datum w Hready).
  set (c := solved_center fsolve (begin_arc datum (self w))).
  assert (Hc : c = [nth 0 c 0; nth 1 c 0]) by reflexivity.
  erewrite (render_arc_ok (S k) _ (nth 0 c 0) (nth 1 c 0) ex ey
              (fst datum * 1000) (Rabs (snd datum * 1000)) (palette_color (S k)));
    [| exact Hc
     | cbn [self starting_point set_circle_center continue_chain
            set_starting_point]; congruence
     | exact Hl | exact Hrad | apply Rabs_no_R0; lra | exact Hfill].
  eexists; split; [reflexivity |].
  reflexivity.
Qed.

(** The session after the first arc of [reversing_arcs]. *)
Lemma reversing_arcs_first :
  exists w1 : World,
    arc_iteration turning_solver 0 (1 / 2, 1 / 100) fresh = (Ret tt, w1)
    /\ ready 1 (self w1)
    /\ circle_center (self w1) = [1500; 1500]
    /\ ending_point (self w1)
       = [1500 + 10 * cos (PI + 50); 1500 + 10 * sin (PI + 50)]
    /\ radius (self w1) = Some 10
    /\ prev_was_negative_radius (self w1) = false.
Proof.
  destruct (arc_iteration_rendered turning_solver 0 (1 / 2, 1 / 100) fresh 1500 1500
              (well_formed_ready _ fresh_well_formed) eq_refl
              ltac:(cbn [snd]; lra))
    as (w1 & cx1 & cy1 & sx & sy & fill & Hc1 & Hs1 & Hl1 & Hr1 & Hfill & Hneg
        & Hcfg1 & Himg & Hev & Hfirst & Hrun).
  cbn [fst snd] in *.
  assert (Hten : Rabs (1 / 100 * 1000) = 10)
    by (replace (1 / 100 * 1000) with 10 by lra; apply Rabs_right; lra).
  assert (Hturn : is_negative (1 / 100 * 1000) = false)
    by (unfold is_negative; destruct (Rlt_dec (1 / 100 * 1000) 0); [lra | reflexivity]).
  rewrite Hten in *; rewrite Hturn in Hneg.
  destruct (Hfirst eq_refl) as [E1 E2].
  rewrite Hc1 in E1; injection E1 as -> ->.
  rewrite Hs1 in E2; injection E2 as -> ->.
  eexists; split; [exact Hrun |].
  unfold rendered;
    cbn [self circle_center ending_point radius prev_was_negative_radius
         set_ending_point set_image set_prev_was_negative_radius].
  rewrite Hneg, atan2_negative_x_axis by lra.
  replace (1 / 2 * 1000 / 10) with 50 by lra.
  split; [split; [split; [exact Hcfg1 | exists 1500, 1500; exact Hc1] |] |].
  { intros _; eexists _, _, _; split; [reflexivity | exact Hr1]. }
  split; [exact Hc1 |]; split; [reflexivity |]; split; [exact Hr1 | reflexivity].
Qed.

(** A call on two arcs leaves the centre the root finder gave for the
    second one. *)
Lemma chain_leaves_last_centre (fsolve : (R * R -> R * R) -> R * R -> R * R)
      (d1 d2 : R * R) (w : World) :
  well_formed (self w) ->
  snd d1 <> 0 ->
  snd d2 <> 0 ->
  circle_center (self (snd (draw_arcs fsolve [d1; d2] w)))
  = solved_center fsolve
      (begin_arc d2 (self (snd (arc_iteration fsolve 0 d1 w)))).
Proof.
  intros Hwf Hnz1 Hnz2.
  pose proof (well_formed_ready _ Hwf) as Hready.
  destruct Hwf as [_ (cx & cy & Hc)].
  destruct (arc_iteration_ok fsolve 0 d1 w cx cy Hready Hc Hnz1)
    as (w1 & Hrun1 & Hready1 & _).
  destruct (later_arc_centre fsolve 0 d2 w1 Hready1 Hnz2) as (w2 & Hrun2 & Hc2).
  unfold draw_arcs; cbn [draw_arcs_loop].
  unfold bind at 1 2 3; rewrite Hrun1; unfold bind at 1; rewrite Hrun2.
  cbn [ret modify emit bind snd self circle_center set_image].
  exact Hc2.
Qed.

Lemma turned_session_centre :
  circle_center (self turned_session)
  = [1500 + 20 * cos (PI + 50); 1500 + 20 * sin (PI + 50)].
Proof.
  unfold turned_session, reversing_arcs.
  rewrite chain_leaves_last_centre;
    [reflexivity | exact fresh_well_formed | cbn [snd]; lra | cbn [snd]; lra].
Qed.

Lemma turned_session_reachable : reachable turning_solver turned_session.
Proof. apply reachable_draw_arcs, reachable_fresh. Qed.

Lemma turning_point_off_centre :
  [1500 + 20 * cos (PI + 50); 1500 + 20 * sin (PI + 50)] <> [1500; 1500].
Proof.
  intros E; injection E as Ex Ey.
  pose proof (sin2_cos2 (PI + 50)) as H; unfold Rsqr in H; nra.
Qed.

(** The point [turning_solver] answers is a zero of both residuals of the
    second arc of [reversing_arcs]. *)
Lemma turning_solver_finds_root :
  let s := continue_chain
             (begin_arc (1 / 2, - (1 / 100))
                (self (snd (arc_iteration turning_solver 0 (1 / 2, 1 / 100) fresh)))) in
  residual s (turning_solver (residual s) (0, 0)) = (0, 0).
Proof.
  destruct reversing_arcs_first
    as (w1 & Hrun & [[Hcfg _] _] & Hc & He & Hr & Hprev).
  rewrite Hrun; cbn [snd]; cbv zeta.
  destruct (begin_arc_frame (1 / 2, - (1 / 100)) (self w1))
    as (_ & Hpr & Hpc & _ & _ & Hep & _).
  pose proof (begin_arc_radius (1 / 2, - (1 / 100)) (self w1)) as Hrad.
  pose proof (begin_arc_same_direction (1 / 2, - (1 / 100)) (self w1)) as Hdir.
  replace (scale (self w1)) with 1000%Z in Hrad, Hdir by (symmetry; apply Hcfg).
  cbn [snd] in Hrad, Hdir.
  assert (Hten : Rabs (- (1 / 100) * 1000) = 10)
    by (replace (- (1 / 100) * 1000) with (- (10)) by lra;
        rewrite Rabs_Ropp; apply Rabs_right; lra).
  assert (Hturn : is_negative (- (1 / 100) * 1000) = true)
    by (unfold is_negative; destruct (Rlt_dec (- (1 / 100) * 1000) 0);
        [reflexivity | lra]).
  rewrite Hten in Hrad; rewrite Hturn, Hprev in Hdir; cbn [Bool.eqb] in Hdir.
  set (s := continue_chain (begin_arc (1 / 2, - (1 / 100)) (self w1))).
  pose proof (find_new_circle_center_eval s 1500 1500
                (1500 + 10 * cos (PI + 50)) (1500 + 10 * sin (PI + 50)) 10 10
                (1500 + 20 * cos (PI + 50)) (1500 + 20 * sin (PI + 50))) as E.
  cbv zeta in E.
  unfold residual, turning_solver; cbn [fst snd]; rewrite E;
    try (subst s; unfold continue_chain;
         cbn [prev_circle_center starting_point prev_radius radius
              set_starting_point]; congruence).
  replace (same_direction_as_previous s) with false
    by (symmetry; exact Hdir).
  pose proof (sin2_cos2 (PI + 50)) as H; unfold Rsqr in H.
  f_equal; nra.
Qed.

(** C6, as the claim states it, fails: [draw_arcs] does not put the centre
    back by itself.  On the session left by [draw_arcs] on the two arcs of
    [reversing_arcs], where the root finder returned the exact centre of the
    second circle, a call on [single_arc] draws its first arc around that
    centre, 20 units off the centre of the canvas, while the same call
    repeated after a reset draws it around (1500, 1500). *)
Lemma first_arc_differs_without_reset :
  let first_arc w0 := self (snd (draw_arcs_loop turning_solver 0 single_arc w0)) in
  let w' := snd (reset_image_coordinates
                   (snd (draw_arcs turning_solver single_arc turned_session))) in
  reachable turning_solver turned_session
  /\ (let s := continue_chain
                 (begin_arc (1 / 2, - (1 / 100))
                    (self (snd (arc_iteration turning_solver 0 (1 / 2, 1 / 100)
                                              fresh)))) in
      residual s (turning_solver (residual s) (0, 0)) = (0, 0))
  /\ circle_center (first_arc turned_session)
     = [1500 + 20 * cos (PI + 50); 1500 + 20 * sin (PI + 50)]
  /\ circle_center (first_arc w') = [1500; 1500]
  /\ circle_center (first_arc turned_session) <> circle_center (first_arc w').
Proof.
  cbv zeta.
  pose proof turned_session_reachable as Hreach.
  pose proof (reachable_well_formed _ _ Hreach) as Hwf.
  destruct (first_arc_geometry turning_solver (1 / 2, 1 / 100) turned_session _ _
              Hwf turned_session_centre) as [F1 _].
  pose proof (draw_arcs_well_formed turning_solver single_arc _ Hwf) as Hwf1.
  pose proof (reset_center _ (proj1 Hwf1)) as Hc'.
  destruct (first_arc_geometry turning_solver (1 / 2, 1 / 100) _ 1500 1500
              (reset_well_formed _ Hwf1) Hc') as [E1 _].
  split; [exact Hreach |]; split; [exact turning_solver_finds_root |].
  unfold single_arc in *; rewrite F1, E1.
  split; [reflexivity |]; split; [reflexivity | exact turning_point_off_centre].
Qed.

Lemma reset_restores_starting_geometry_witness :
  let datum := (1 / 2, 1 / 100) in
  let rest := [(1 / 2, - (1 / 100))] in
  let first_arc w0 := self (snd (draw_arcs_loop turning_solver 0 [datum] w0)) in
  let before := snd (draw_arcs turning_solver (datum :: rest) turned_session) in
  let w' := snd (reset_image_coordinates before) in
  reachable turning_solver turned_session
  /\ circle_center (self before) <> [1500; 1500]
  /\ circle_center (self w') = [1500; 1500]
  /\ circle_center (first_arc w') = [1500; 1500]
  /\ starting_point (first_arc w') = [1490; 1500]
  /\ circle_center (first_arc turned_session) <> circle_center (first_arc w').
Proof.
  cbv zeta.
  pose proof turned_session_reachable as Hreach.
  destruct (reset_restores_starting_geometry turning_solver turned_session
              (1 / 2, 1 / 100) [(1 / 2, - (1 / 100))] Hreach)
    as (H1 & H2 & H3 & H4 & H5).
  split; [exact Hreach |]; split; [| split; [exact H1 |]; split; [exact H2 |]; split].
  - rewrite chain_leaves_last_centre;
      [exact turning_point_off_centre
      | exact (reachable_well_formed _ _ Hreach) | cbn [snd]; lra | cbn [snd]; lra].
  - rewrite H3; cbn [snd]; f_equal.
    replace (1 / 100 * 1000) with 10 by lra; rewrite Rabs_right by lra; lra.
  - intros E; rewrite H4, H2, turned_session_centre in E.
    exact (turning_point_off_centre E).
Defined.

(** ** The further properties at concrete inputs *)

Lemma after_first_arc_ready : ready 1 (self after_first_arc_session).
Proof.
  split; [split; [repeat split |] |].
  - exists 1500, 1500; reflexivity.
  - intros _; exists 1490, 1500, 10; split; reflexivity.
Qed.

Lemma single_arc_nonzero : Forall nonzero_radius single_arc.
Proof. repeat constructor; unfold nonzero_radius; cbn [snd]; lra. Qed.

Lemma ending_point_lies_on_circle_witness :
  (circle_center after_first_arc_with_length = [1500; 1500]
   /\ l after_first_arc_with_length = Some 500
   /\ radius after_first_arc_with_length = Some 10)
  /\ (10 <> 0 ->
      exists ex ey : R,
        find_ending_point after_first_arc_with_length PI = Ret [ex; ey]
        /\ (ex - 1500) ^ 2 + (ey - 1500) ^ 2 = 10 ^ 2).
Proof.
  split; [repeat split; reflexivity |].
  apply (ending_point_lies_on_circle after_first_arc_with_length PI 1500 1500 500 10);
    reflexivity.
Defined.

Lemma successful_chain_trace_witness :
  (reachable guess_solver fresh /\ Forall nonzero_radius single_arc)
  /\ exists w' : World, draw_arcs guess_solver single_arc fresh = (Ret tt, w').
Proof.
  split; [split; [apply reachable_fresh | exact single_arc_nonzero] |].
  destruct (successful_chain_trace guess_solver fresh single_arc
              (reachable_fresh guess_solver) single_arc_nonzero)
    as (w' & cmds & Hrun & _).
  exists w'; exact Hrun.
Defined.

Lemma chain_colours_cycle_witness :
  (reachable guess_solver fresh /\ Forall nonzero_radius single_arc)
  /\ exists cmds : list DrawCmd,
       img_ops (image (self (snd (draw_arcs guess_solver single_arc fresh))))
       = img_ops (image (self fresh)) ++ cmds
       /\ map arc_style cmds = [Some ((0, 0, 153)%Z, 6%Z)].
Proof.
  split; [split; [apply reachable_fresh | exact single_arc_nonzero] |].
  destruct (chain_colours_cycle guess_solver fresh single_arc
              (reachable_fresh guess_solver) single_arc_nonzero)
    as (cmds & Hops & Hst & _).
  exists cmds; split; [exact Hops | exact Hst].
Defined.

Lemma draw_arcs_raises_only_on_zero_radius_witness :
  reachable guess_solver fresh
  /\ (fst (draw_arcs guess_solver single_arc fresh) = Ret tt
      <-> Forall nonzero_radius single_arc).
Proof.
  split; [apply reachable_fresh |].
  apply (draw_arcs_raises_only_on_zero_radius guess_solver fresh single_arc
           (reachable_fresh guess_solver)).
Defined.

Lemma consecutive_arcs_compare_signs_witness :
  (reachable guess_solver fresh /\ Forall nonzero_radius ([] ++ [(1 / 2, 1 / 100)]))
  /\ same_direction_as_previous
       (self (snd (draw_arcs_loop guess_solver 0
                     ([] ++ [(1 / 2, 1 / 100)] ++ [(1 / 2, - (1 / 100))]) fresh)))
     = Bool.eqb (is_negative (snd (1 / 2, - (1 / 100)) * 1000))
                (is_negative (snd (1 / 2, 1 / 100) * 1000)).
Proof.
  split; [split; [apply reachable_fresh | exact single_arc_nonzero] |].
  apply (consecutive_arcs_compare_signs guess_solver fresh [] (1 / 2, 1 / 100)
           (1 / 2, - (1 / 100)) (reachable_fresh guess_solver) single_arc_nonzero).
Defined.

Lemma first_arc_uses_current_centre_witness :
  (reachable guess_solver fresh /\ circle_center (self fresh) = [1500; 1500])
  /\ circle_center (self (snd (draw_arcs_loop guess_solver 0 [(1 / 2, 1 / 100)] fresh)))
     = [1500; 1500].
Proof.
  split; [split; [apply reachable_fresh | reflexivity] |].
  apply (first_arc_uses_current_centre guess_solver fresh (1 / 2, 1 / 100) 1500 1500
           (reachable_fresh guess_solver) eq_refl).
Defined.

Lemma arc_command_is_well_formed_witness :
  (ready 0 (self fresh) /\ snd (1 / 2, 1 / 100) <> 0 /\ 0 <= fst (1 / 2, 1 / 100))
  /\ exists w' : World,
       arc_iteration guess_solver 0 (1 / 2, 1 / 100) fresh = (Ret tt, w').
Proof.
  assert (Hready : ready 0 (self fresh))
    by exact (well_formed_ready _ fresh_well_formed).
  assert (Hnz : snd (1 / 2, 1 / 100) <> 0) by (cbn [snd]; lra).
  assert (Hlen : 0 <= fst (1 / 2, 1 / 100)) by (cbn [fst]; lra).
  split; [exact (conj Hready (conj Hnz Hlen)) |].
  destruct (arc_command_is_well_formed guess_solver 0 (1 / 2, 1 / 100) fresh
              Hready Hnz Hlen) as (w' & H).
  destruct H as (x0 & y0 & x1 & y1 & a & b & cx & cy & fill & width & Hrun & _).
  exists w'; exact Hrun.
Defined.


Lemma centre_solver_finds_root :
  let s := continue_chain (begin_arc (1 / 2, 1 / 100) after_first_arc) in
  snd (residual s (centre_solver (residual s) (0, 0))) = 0.
Proof.
  cbv zeta; unfold centre_solver, residual; cbn [fst snd].
  pose proof (find_new_circle_center_eval
                (continue_chain (begin_arc (1 / 2, 1 / 100) after_first_arc))
                1500 1500 1490 1500 10 (Rabs (1 / 100 * 1000)) 1500 1500) as E.
  cbv zeta in E; rewrite E.
  - cbn [snd]; replace (1 / 100 * 1000) with 10 by lra.
    rewrite Rabs_right by lra; ring.
  - destruct (begin_arc_frame (1 / 2, 1 / 100) after_first_arc)
      as (_ & _ & Hpc & _); exact Hpc.
  - destruct (begin_arc_frame (1 / 2, 1 / 100) after_first_arc)
      as (_ & _ & _ & _ & _ & Hep & _); exact Hep.
  - destruct (begin_arc_frame (1 / 2, 1 / 100) after_first_arc)
      as (_ & Hpr & _); exact Hpr.
  - exact (begin_arc_radius (1 / 2, 1 / 100) after_first_arc).
Qed.

Lemma arc_start_lies_on_circle_witness :
  (ready 1 (self after_first_arc_session)
   /\ snd (1 / 2, 1 / 100) <> 0
   /\ let s := continue_chain (begin_arc (1 / 2, 1 / 100) after_first_arc) in
      snd (residual s (centre_solver (residual s) (0, 0))) = 0)
  /\ exists (w' : World) (cx cy sx sy : R),
       arc_iteration centre_solver 1 (1 / 2, 1 / 100) after_first_arc_session
       = (Ret tt, w')
       /\ circle_center (self w') = [cx; cy]
       /\ starting_point (self w') = [sx; sy]
       /\ (sx - cx) ^ 2 + (sy - cy) ^ 2 = Rabs (snd (1 / 2, 1 / 100) * 1000) ^ 2.
Proof.
  assert (Hnz : snd (1 / 2, 1 / 100) <> 0) by (cbn [snd]; lra).
  split;
    [split; [exact after_first_arc_ready
            | split; [exact Hnz | exact centre_solver_finds_root]] |].
  apply (arc_start_lies_on_circle centre_solver 1 (1 / 2, 1 / 100)
           after_first_arc_session after_first_arc_ready Hnz).
  intros _; exact centre_solver_finds_root.
Defined.

Lemma closing_point_dropped_iff_closed_witness :
  closed_polygon closed_triangle
  /\ fill_points Good_init closed_triangle
     = resize_polygon Good_init (removelast closed_triangle).
Proof.
  assert (H : closed_polygon closed_triangle).
  { split; [cbn [closed_triangle List.length]; lia |].
    exists (0, 0); split; reflexivity. }
  split; [exact H |].
  apply (closing_point_dropped_iff_closed Good_init closed_triangle); exact H.
Defined.

Lemma polygons_only_touch_canvas_witness :
  Forall (fun polygon =>
            (2 <= List.length (fill_points (self fresh) polygon))%nat)
         [closed_triangle]
  /\ exists w' : World,
       draw_polygons [closed_triangle] fresh = (Ret tt, w')
       /\ img_ops (image (self w'))
          = [Polygon [(0, 0); (1000, 0); (1000, 1000)] "black" "black"].
Proof.
  assert (H : Forall (fun polygon =>
                        (2 <= List.length (fill_points (self fresh) polygon))%nat)
                     [closed_triangle]).
  { constructor; [| constructor].
    change (self fresh) with Good_init; rewrite fill_points_closed_triangle.
    cbn [List.length]; lia. }
  split; [exact H |].
  destruct (polygons_only_touch_canvas [closed_triangle] fresh H)
    as (w' & Hrun & _ & _ & _ & _ & Hops & _).
  exists w'; split; [exact Hrun |].
  rewrite Hops; cbn [map fresh self image Good_init Image_new img_ops app].
  change (self fresh) with Good_init; rewrite fill_points_closed_triangle.
  reflexivity.
Defined.

Lemma positive_radius_turn : is_negative (1 / 100 * 1000) = false.
Proof.
  unfold is_negative; destruct (Rlt_dec (1 / 100 * 1000) 0); [lra | reflexivity].
Qed.

Lemma centre_solver_keeps_centre :
  let s := continue_chain (begin_arc (1 / 2, 1 / 100) after_first_arc) in
  fst (residual s (centre_solver (residual s) (0, 0))) = 0.
Proof.
  cbv zeta; unfold centre_solver, residual; cbn [fst snd].
  pose proof (find_new_circle_center_eval
                (continue_chain (begin_arc (1 / 2, 1 / 100) after_first_arc))
                1500 1500 1490 1500 10 (Rabs (1 / 100 * 1000)) 1500 1500) as E.
  cbv zeta in E; rewrite E.
  - assert (Hdir : same_direction_as_previous
                     (continue_chain (begin_arc (1 / 2, 1 / 100) after_first_arc))
                   = true).
    { unfold continue_chain; cbn [same_direction_as_previous set_starting_point].
      rewrite begin_arc_same_direction.
      change (IZR (scale after_first_arc)) with 1000; cbn [snd].
      rewrite positive_radius_turn; reflexivity. }
    rewrite Hdir; cbn [fst]; replace (1 / 100 * 1000) with 10 by lra.
    rewrite Rabs_right by lra; ring.
  - destruct (begin_arc_frame (1 / 2, 1 / 100) after_first_arc)
      as (_ & _ & Hpc & _); exact Hpc.
  - destruct (begin_arc_frame (1 / 2, 1 / 100) after_first_arc)
      as (_ & _ & _ & _ & _ & Hep & _); exact Hep.
  - destruct (begin_arc_frame (1 / 2, 1 / 100) after_first_arc)
      as (_ & Hpr & _); exact Hpr.
  - exact (begin_arc_radius (1 / 2, 1 / 100) after_first_arc).
Qed.

Lemma repeated_arc_keeps_circle_witness :
  (ready 1 (self after_first_arc_session)
   /\ circle_center (self after_first_arc_session) = [1500; 1500]
   /\ radius (self after_first_arc_session) = Some 10
   /\ 10 <> 0
   /\ Rabs (snd (1 / 2, 1 / 100) * 1000) = 10
   /\ is_negative (snd (1 / 2, 1 / 100) * 1000)
      = prev_was_negative_radius (self after_first_arc_session))
  /\ exists w' : World,
       arc_iteration centre_solver 1 (1 / 2, 1 / 100) after_first_arc_session
       = (Ret tt, w')
       /\ circle_center (self w') = [1500; 1500].
Proof.
  assert (Hten : Rabs (snd (1 / 2, 1 / 100) * 1000) = 10).
  { cbn [snd]; replace (1 / 100 * 1000) with 10 by lra; apply Rabs_right; lra. }
  assert (Hturn : is_negative (snd (1 / 2, 1 / 100) * 1000)
                  = prev_was_negative_radius (self after_first_arc_session))
    by exact positive_radius_turn.
  assert (Hnz : 10 <> 0) by lra.
  split.
  { repeat (split; [first [exact after_first_arc_ready | reflexivity
                          | assumption] |]); exact Hturn. }
  apply (repeated_arc_keeps_circle centre_solver 0 (1 / 2, 1 / 100)
           after_first_arc_session 1500 1500 10 after_first_arc_ready
           eq_refl eq_refl Hnz Hten Hturn centre_solver_keeps_centre).
Defined.

Lemma session_keeps_configuration_witness :
  reachable guess_solver fresh /\ scale (self fresh) = 1000%Z.
Proof.
  split; [apply reachable_fresh |].
  apply (session_keeps_configuration guess_solver fresh (reachable_fresh guess_solver)).
Defined.
